(** * LyricFlow Studio: the time-synchronisation core

    A shallow embedding of the timed-lyrics codec ([utils/lrcParser]), of the
    suggestion service ([services/geminiService]), of the handlers of the
    lyric editor ([components/LyricEditor]) and of the application controller
    ([App]), followed by the properties proved about them.

    Conventions of the embedding.
    - A JavaScript string is a list of UTF-16 code units.
    - A JavaScript number is [NaN], a signed [Infinity], or a finite value
      kept as an exact rational: rounding and overflow of IEEE doubles are
      not represented, and zero is unsigned.
    - A React handler is a function of the state captured by the closure it
      was created in; it returns the list of state-setter calls it makes,
      which are then applied to the state current at that moment.
    - [Date.now()] and the answers of external services are parameters. *)

From Stdlib Require Import String Ascii.
From Stdlib Require Import List Bool Arith ZArith NArith QArith Qround Qabs.
From Stdlib Require Import Lia Lqa Sorted Permutation.
From Stdlib Require DecimalN.
Import ListNotations.

Close Scope Q_scope.
Open Scope nat_scope.

(** ** JavaScript strings *)

Module JS.

Definition char := N.
Definition jsstring := list char.

Definition ch (a : ascii) : char := N_of_ascii a.

Fixpoint str (s : string) : jsstring :=
  match s with
  | EmptyString => []
  | String a s' => ch a :: str s'
  end.

Definition LF : char := 10%N.
Definition CR : char := 13%N.

Definition char_in (c : char) (l : list char) : bool :=
  existsb (N.eqb c) l.

(** LineTerminator: LF, CR, LS, PS. *)
Definition isLineTerminator (c : char) : bool :=
  char_in c [0x0A; 0x0D; 0x2028; 0x2029]%N.

(** WhiteSpace: TAB, VT, FF, SP, NBSP, ZWNBSP and the category Zs. *)
Definition isWhiteSpace (c : char) : bool :=
  char_in c [0x09; 0x0B; 0x0C; 0x20; 0xA0; 0xFEFF; 0x1680; 0x202F; 0x205F; 0x3000]%N
  || ((0x2000 <=? c)%N && (c <=? 0x200A)%N).

(** The characters stripped by [String.prototype.trim] and skipped by
    [parseInt] and [parseFloat]. *)
Definition isStrWhiteSpace (c : char) : bool :=
  isWhiteSpace c || isLineTerminator c.

(** [\d] of a regular expression without the unicode flag. *)
Definition isDigit (c : char) : bool :=
  (48 <=? c)%N && (c <=? 57)%N.

Definition digitValue (c : char) : N := (c - 48)%N.

Fixpoint jsstring_eqb (s t : jsstring) : bool :=
  match s, t with
  | [], [] => true
  | c :: s', d :: t' => (c =? d)%N && jsstring_eqb s' t'
  | _, _ => false
  end.

Fixpoint trimStart (s : jsstring) : jsstring :=
  match s with
  | [] => []
  | c :: s' => if isStrWhiteSpace c then trimStart s' else s
  end.

Definition trimEnd (s : jsstring) : jsstring :=
  rev (trimStart (rev s)).

Definition trim (s : jsstring) : jsstring :=
  trimEnd (trimStart s).

(** [s.split(sep)] for a one-character separator: never empty. *)
Fixpoint split (sep : char) (s : jsstring) : list jsstring :=
  match s with
  | [] => [[]]
  | c :: s' =>
      if (c =? sep)%N then [] :: split sep s'
      else match split sep s' with
           | [] => [[c]]
           | p :: ps => (c :: p) :: ps
           end
  end.

(** [parts.join(sep)]. *)
Fixpoint join (sep : jsstring) (parts : list jsstring) : jsstring :=
  match parts with
  | [] => []
  | [p] => p
  | p :: ps => p ++ sep ++ join sep ps
  end.

(** [arr.slice(from, to)] for non-negative bounds. *)
Definition slice {A : Type} (from to : nat) (l : list A) : list A :=
  skipn from (firstn to l).

(** [arr.splice(at, 0, x)] on a copy: insertion at position [at], clamped to
    the length. *)
Definition splice_insert {A : Type} (at_ : nat) (x : A) (l : list A) : list A :=
  firstn at_ l ++ x :: skipn at_ l.

(** Decimal digits of a natural number, as [String(n)] prints them. *)
Fixpoint uint_chars (u : Decimal.uint) : jsstring :=
  match u with
  | Decimal.Nil => []
  | Decimal.D0 u' => 48%N :: uint_chars u'
  | Decimal.D1 u' => 49%N :: uint_chars u'
  | Decimal.D2 u' => 50%N :: uint_chars u'
  | Decimal.D3 u' => 51%N :: uint_chars u'
  | Decimal.D4 u' => 52%N :: uint_chars u'
  | Decimal.D5 u' => 53%N :: uint_chars u'
  | Decimal.D6 u' => 54%N :: uint_chars u'
  | Decimal.D7 u' => 55%N :: uint_chars u'
  | Decimal.D8 u' => 56%N :: uint_chars u'
  | Decimal.D9 u' => 57%N :: uint_chars u'
  end.

Definition N_toString (n : N) : jsstring := uint_chars (N.to_uint n).

Definition Z_toString (z : Z) : jsstring :=
  match z with
  | Zneg p => ch "-" :: N_toString (Npos p)
  | _ => N_toString (Z.to_N z)
  end.

(** Value of a string of decimal digits, most significant first. *)
Definition digitsValue (ds : jsstring) : N :=
  fold_left (fun acc d => (10 * acc + digitValue d)%N) ds 0%N.

(** The longest prefix of decimal digits, and what follows it. *)
Fixpoint spanDigits (s : jsstring) : jsstring * jsstring :=
  match s with
  | c :: s' =>
      if isDigit c then let (ds, r) := spanDigits s' in (c :: ds, r)
      else ([], s)
  | [] => ([], [])
  end.

(** ** JavaScript numbers *)

Inductive number : Type :=
  | NaN
  | Infinity (negative : bool)
  | Fin (q : Q).

Definition ofN (n : N) : number := Fin (inject_Z (Z.of_N n)).
Definition ofZ (z : Z) : number := Fin (inject_Z z).

Definition isNaN (x : number) : bool :=
  match x with NaN => true | _ => false end.

Definition Qis0 (q : Q) : bool := Qeq_bool q 0.
Definition Qneg (q : Q) : bool := negb (Qle_bool 0 q).

Definition nadd (a b : number) : number :=
  match a, b with
  | NaN, _ | _, NaN => NaN
  | Infinity s, Infinity s' => if Bool.eqb s s' then Infinity s else NaN
  | Infinity s, Fin _ | Fin _, Infinity s => Infinity s
  | Fin p, Fin q => Fin (p + q)
  end.

Definition nopp (a : number) : number :=
  match a with
  | NaN => NaN
  | Infinity s => Infinity (negb s)
  | Fin q => Fin (- q)
  end.

Definition nsub (a b : number) : number := nadd a (nopp b).

Definition nmul (a b : number) : number :=
  match a, b with
  | NaN, _ | _, NaN => NaN
  | Infinity s, Infinity s' => Infinity (xorb s s')
  | Infinity s, Fin q | Fin q, Infinity s =>
      if Qis0 q then NaN else Infinity (xorb s (Qneg q))
  | Fin p, Fin q => Fin (p * q)
  end.

(** Division; a zero divisor counts as [+0]. *)
Definition ndiv (a b : number) : number :=
  match a, b with
  | NaN, _ | _, NaN => NaN
  | Infinity _, Infinity _ => NaN
  | Infinity s, Fin q => Infinity (xorb s (Qneg q))
  | Fin _, Infinity _ => Fin 0
  | Fin p, Fin q =>
      if Qis0 q then (if Qis0 p then NaN else Infinity (Qneg p))
      else Fin (p / q)
  end.

(** Rounding towards zero. *)
Definition Qtrunc (q : Q) : Z :=
  if Qle_bool 0 q then Qfloor q else Qceiling q.

(** [a % b]: the remainder has the sign of the dividend. *)
Definition nrem (a b : number) : number :=
  match a, b with
  | NaN, _ | _, NaN => NaN
  | Infinity _, _ => NaN
  | Fin p, Infinity _ => Fin p
  | Fin p, Fin q =>
      if Qis0 q then NaN else Fin (p - q * inject_Z (Qtrunc (p / q)))
  end.

(** [a <= b] and [a < b]: false as soon as an operand is [NaN]. *)
Definition nle (a b : number) : bool :=
  match a, b with
  | NaN, _ | _, NaN => false
  | Infinity true, _ => true
  | _, Infinity false => true
  | Infinity false, _ => false
  | _, Infinity true => false
  | Fin p, Fin q => Qle_bool p q
  end.

Definition nlt (a b : number) : bool :=
  match a, b with
  | NaN, _ | _, NaN => false
  | Infinity s, Infinity s' => s && negb s'
  | Infinity s, Fin _ => s
  | Fin _, Infinity s => negb s
  | Fin p, Fin q => negb (Qle_bool q p)
  end.

(** [x || 0] on a number: [NaN] and zero are falsy. *)
Definition isFalsy (x : number) : bool :=
  match x with
  | NaN => true
  | Infinity _ => false
  | Fin q => Qis0 q
  end.

Definition or0 (x : number) : number :=
  if isFalsy x then Fin 0 else x.

(** The values [Math.floor] returns: integer-valued numbers. *)
Inductive integral : Type :=
  | INaN
  | IInfinity (negative : bool)
  | Int (z : Z).

Definition Math_floor (x : number) : integral :=
  match x with
  | NaN => INaN
  | Infinity s => IInfinity s
  | Fin q => Int (Qfloor q)
  end.

(** [num < 10] on an integral number. *)
Definition integral_lt (n : integral) (k : Z) : bool :=
  match n with
  | INaN => false
  | IInfinity s => s
  | Int z => (z <? k)%Z
  end.

(** [String(num)] on an integral number; plain decimal digits, which is
    what JavaScript prints below 10^21. *)
Definition integral_toString (n : integral) : jsstring :=
  match n with
  | INaN => str "NaN"
  | IInfinity false => str "Infinity"
  | IInfinity true => str "-Infinity"
  | Int z => Z_toString z
  end.

(** Whether [p] is a prefix of [s], and what follows it. *)
Fixpoint stripPrefix (p s : jsstring) : option jsstring :=
  match p, s with
  | [], _ => Some s
  | c :: p', d :: s' => if (c =? d)%N then stripPrefix p' s' else None
  | _ :: _, [] => None
  end.

(** An optional sign in front of a literal. *)
Definition spanSign (s : jsstring) : bool * jsstring :=
  match s with
  | c :: r => if (c =? ch "-")%N then (true, r)
              else if (c =? ch "+")%N then (false, r)
              else (false, s)
  | [] => (false, s)
  end.

(** [parseInt(s, 10)]: leading white space, an optional sign, then the longest
    run of digits; [NaN] when there is none. *)
Definition parseInt10 (s : jsstring) : number :=
  let (neg, s2) := spanSign (trimStart s) in
  match fst (spanDigits s2) with
  | [] => NaN
  | ds => if neg then Fin (- inject_Z (Z.of_N (digitsValue ds)))
          else ofN (digitsValue ds)
  end.

(** ExponentPart of a decimal literal: [e] or [E], an optional sign and at
    least one digit; absent (exponent 0) otherwise. *)
Definition spanExponent (s : jsstring) : Z :=
  match s with
  | c :: r =>
      if (c =? ch "e")%N || (c =? ch "E")%N then
        let (neg, r') := spanSign r in
        match fst (spanDigits r') with
        | [] => 0%Z
        | ds => if neg then (- Z.of_N (digitsValue ds))%Z
                else Z.of_N (digitsValue ds)
        end
      else 0%Z
  | [] => 0%Z
  end.

(** [parseFloat(s)]: leading white space, then the longest prefix that is a
    StrDecimalLiteral (a sign, then [Infinity] or digits with an optional
    fraction and exponent); [NaN] when there is none. *)
Definition parseFloat (s : jsstring) : number :=
  let (neg, s2) := spanSign (trimStart s) in
  let signed (q : Q) := Fin (if neg then (- q)%Q else q) in
  match stripPrefix (str "Infinity") s2 with
  | Some _ => Infinity neg
  | None =>
      let (ip, r) := spanDigits s2 in
      match r with
      | c :: r' =>
          if (c =? ch ".")%N then
            let (fp, r'') := spanDigits r' in
            match ip, fp with
            | [], [] => NaN
            | _, _ =>
                signed (inject_Z (Z.of_N (digitsValue (ip ++ fp)))
                        * Qpower 10 (spanExponent r'' - Z.of_nat (length fp)))%Q
            end
          else
            match ip with
            | [] => NaN
            | _ => signed (inject_Z (Z.of_N (digitsValue ip))
                           * Qpower 10 (spanExponent r))%Q
            end
      | [] =>
          match ip with
          | [] => NaN
          | _ => signed (inject_Z (Z.of_N (digitsValue ip)))
          end
      end
  end.

(** [arr.sort(cmp)]: the order is stable, and a comparator result that is
    neither negative nor positive ([0] or [NaN]) leaves two elements in their
    order. For a consistent comparator every implementation returns this
    list; it is computed here by insertion from the right. *)
Section Sort.
Context {A : Type} (cmp : A -> A -> number).

Definition isPositive (v : number) : bool := nlt (Fin 0) v.

Fixpoint insert (x : A) (l : list A) : list A :=
  match l with
  | [] => [x]
  | y :: l' => if isPositive (cmp x y) then y :: insert x l' else x :: l
  end.

Definition sort (l : list A) : list A := fold_right insert [] l.
End Sort.

(** How the evaluation of a handler ends: normally, or by a thrown
    [TypeError] (a property read on [undefined]). *)
Inductive completion (A : Type) : Type :=
  | Throw
  | Normal (a : A).
Arguments Throw {A}.
Arguments Normal {A} a.

End JS.

Import JS.

(** ** types.ts *)

Record LyricLine : Type := {
  id : jsstring;
  timestamp : number;
  text : jsstring
}.

Inductive AppMode : Type := EDIT | TAP_SYNC.

Definition with_text (l : LyricLine) (t : jsstring) : LyricLine :=
  {| id := id l; timestamp := timestamp l; text := t |}.

Definition with_timestamp (l : LyricLine) (t : number) : LyricLine :=
  {| id := id l; timestamp := t; text := text l |}.

(** The comparator [(a, b) => a.timestamp - b.timestamp]. *)
Definition byTimestamp (a b : LyricLine) : number :=
  nsub (timestamp a) (timestamp b).

(** ** utils/lrcParser.ts *)

Module LrcParser.

Notation "'let*' x ':=' e 'in' k" :=
  (match e with Some x => k | None => None end)
  (at level 10, x pattern, e at level 200, k at level 200, only parsing).

(** The four capture groups of a match of [TIME_REGEXP]. *)
Record RegExpMatch : Type := {
  group1 : jsstring;
  group2 : jsstring;
  group3 : jsstring;
  group4 : jsstring
}.

(** A literal character of the pattern. *)
Definition expect (c : char) (s : jsstring) : option jsstring :=
  match s with
  | d :: r => if (d =? c)%N then Some r else None
  | [] => None
  end.

(** [\d{n}]: exactly [n] digits. *)
Fixpoint digits (n : nat) (s : jsstring) : option (jsstring * jsstring) :=
  match n with
  | O => Some ([], s)
  | S n' =>
      match s with
      | c :: r =>
          if isDigit c then
            let* (ds, r') := digits n' r in Some (c :: ds, r')
          else None
      | [] => None
      end
  end.

(** The final group, any characters but line terminators, as many as
    possible: everything up to the first line terminator. *)
Fixpoint dotStar (s : jsstring) : jsstring :=
  match s with
  | [] => []
  | c :: r => if isLineTerminator c then [] else c :: dotStar r
  end.

(** [\d{2,3}\]]: greedy, three digits are tried before two. *)
Definition fraction (s : jsstring) : option (jsstring * jsstring) :=
  match (let* (f, r) := digits 3 s in
         let* r' := expect (ch "]") r in Some (f, r')) with
  | Some m => Some m
  | None =>
      let* (f, r) := digits 2 s in
      let* r' := expect (ch "]") r in Some (f, r')
  end.

(** [line.match(TIME_REGEXP)]: at the start of the line an opening bracket,
    group 1 [\d{2}], a colon, group 2 [\d{2}], a dot, group 3 [\d{2,3}], a
    closing bracket, and group 4, the rest of the line. *)
Definition TIME_REGEXP (line : jsstring) : option RegExpMatch :=
  let* s := expect (ch "[") line in
  let* (m, s) := digits 2 s in
  let* s := expect (ch ":") s in
  let* (sec, s) := digits 2 s in
  let* s := expect (ch ".") s in
  let* (f, s) := fraction s in
  Some {| group1 := m; group2 := sec; group3 := f; group4 := dotStar s |}.

(** The record pushed for a matching line. *)
Definition lineOfMatch (now : N) (index : nat) (m : RegExpMatch) : LyricLine :=
  let minutes := parseInt10 (group1 m) in
  let seconds := parseInt10 (group2 m) in
  let milliseconds := parseInt10 (group3 m) in
  let text := trim (group4 m) in
  let msDivisor := if length (group3 m) =? 3 then ofN 1000 else ofN 100 in
  let totalSeconds :=
    nadd (nadd (nmul minutes (ofN 60)) seconds) (ndiv milliseconds msDivisor) in
  {| id := str "line-" ++ N_toString (N.of_nat index) ++ str "-" ++ N_toString now;
     timestamp := totalSeconds;
     text := text |}.

(** The body of [lines.forEach((line, index) => ...)], pushing onto
    [result]; [now index] is what [Date.now()] returns in the callback of
    line [index]. *)
Fixpoint forEachLine (now : nat -> N) (index : nat) (lines : list jsstring)
    (result : list LyricLine) : list LyricLine :=
  match lines with
  | [] => result
  | line :: rest =>
      forEachLine now (S index) rest
        match TIME_REGEXP line with
        | Some m => result ++ [lineOfMatch (now index) index m]
        | None => result
        end
  end.

Definition parseLRC (now : nat -> N) (lrcContent : jsstring) : list LyricLine :=
  let lines := split LF lrcContent in
  let result := forEachLine now 0 lines [] in
  sort byTimestamp result.

(** [format] of [formatTime]: [num < 10 ? `0${num}` : `${num}`]. *)
Definition format (num : integral) : jsstring :=
  if integral_lt num 10 then ch "0" :: integral_toString num
  else integral_toString num.

Definition formatTime (seconds : number) : jsstring :=
  let mins := Math_floor (ndiv seconds (ofN 60)) in
  let secs := Math_floor (nrem seconds (ofN 60)) in
  let ms := Math_floor (nmul (nrem seconds (ofN 1)) (ofN 100)) in
  str "[" ++ format mins ++ str ":" ++ format secs ++ str "." ++ format ms
    ++ str "]".

Definition exportLRC (lyrics : list LyricLine) : jsstring :=
  join [LF]
    (map (fun line => formatTime (timestamp line) ++ str " " ++ text line)
       lyrics).


End LrcParser.

(** ** services/geminiService.ts *)

Module GeminiService.

(** How [model.generateContent] ends: the promise is rejected, or it is
    fulfilled with a response whose [text] may be undefined. *)
Inductive generateContent_result : Type :=
  | Rejected
  | Response (text : option jsstring).

(** The client: absent without an API key; otherwise its answer to the
    prompt, which is built from the context lines. *)
Definition client := option (list jsstring -> generateContent_result).

Definition missingKeyMessage : jsstring :=
  str "Please configure API_KEY to use AI features.".

Definition errorMessage : jsstring :=
  str "Error generating suggestion.".

Definition generateLyricSuggestion (ai : client) (contextLines : list jsstring)
    : jsstring :=
  match ai with
  | None => missingKeyMessage
  | Some generateContent =>
      match generateContent contextLines with
      | Rejected => errorMessage
      | Response None => []
      | Response (Some t) => trim t
      end
  end.

End GeminiService.

(** ** components/LyricEditor.tsx *)

Module LyricEditor.

Inductive key : Type := Enter | Backspace | OtherKey.

(** Each handler returns the argument of its call of [onUpdateLyrics], or
    [None] when it makes no call. *)

Definition handleTextChange (lyrics : list LyricLine) (id_ newText : jsstring)
    : option (list LyricLine) :=
  Some (map (fun l => if jsstring_eqb (id l) id_ then with_text l newText else l)
          lyrics).

Definition handleDelete (lyrics : list LyricLine) (id_ : jsstring)
    : option (list LyricLine) :=
  Some (filter (fun l => negb (jsstring_eqb (id l) id_)) lyrics).

Definition handleTimeChange (lyrics : list LyricLine) (id_ newTimeStr : jsstring)
    : option (list LyricLine) :=
  match split (ch ":") newTimeStr with
  | [part0; part1] =>
      let min := parseFloat part0 in
      let sec := parseFloat part1 in
      if negb (isNaN min) && negb (isNaN sec) then
        let total := nadd (nmul min (ofN 60)) sec in
        let updated :=
          map (fun l => if jsstring_eqb (id l) id_ then with_timestamp l total
                        else l) lyrics in
        Some (sort byTimestamp updated)
      else None
  | _ => None
  end.

(** [handleKeyDown(e, index)]; [now] is [Date.now()]. Reading
    [lyrics[index]] out of range throws. *)
Definition handleKeyDown (lyrics : list LyricLine) (now : N) (k : key)
    (index : nat) : completion (option (list LyricLine)) :=
  match k with
  | Enter =>
      match nth_error lyrics index with
      | None => Throw
      | Some cur =>
          let newLine :=
            {| id := str "line-" ++ N_toString now;
               timestamp := nadd (timestamp cur) (ofN 2);
               text := [] |} in
          Normal (Some (splice_insert (index + 1) newLine lyrics))
      end
  | Backspace =>
      match nth_error lyrics index with
      | None => Throw
      | Some cur =>
          if jsstring_eqb (text cur) [] && (1 <? length lyrics) then
            Normal (handleDelete lyrics (id cur))
          else Normal None
      end
  | OtherKey => Normal None
  end.

End LyricEditor.

(** ** components/WaveformPlayer.tsx *)

Module WaveformPlayer.

(** [getCurrentTime] of the player handle:
    [wavesurferRef.current?.getCurrentTime() || 0]. The argument is the time
    the wavesurfer instance reports, if there is an instance. *)
Definition getCurrentTime (wavesurfer : option number) : number :=
  match wavesurfer with
  | Some t => or0 t
  | None => Fin 0
  end.

(** The listener [(currentTime) => onTimeUpdate(currentTime)] that the
    effect run once, when the player is mounted, registers for
    [timeupdate]: [onTimeUpdate] stays the prop of that first render. *)
Definition timeupdateListener {R : Type} (onTimeUpdate : number -> R)
    (currentTime : number) : R :=
  onTimeUpdate currentTime.

End WaveformPlayer.

(** ** App.tsx *)

Module App.

Record AppState : Type := {
  lyrics : list LyricLine;
  currentTime : number;
  activeLineId : option jsstring;
  mode : AppMode;
  syncIndex : nat;
  isAiLoading : bool;
  notification : option jsstring
}.

(** [useState] initial values. *)
Definition initialState : AppState :=
  {| lyrics := []; currentTime := Fin 0; activeLineId := None; mode := EDIT;
     syncIndex := 0; isAiLoading := false; notification := None |}.

(** Calls of the state setters. [setSyncIndexWith f] is the functional form
    [setSyncIndex(prev => f prev)]. *)
Inductive setter : Type :=
  | setLyrics (l : list LyricLine)
  | setCurrentTime (t : number)
  | setActiveLineId (i : jsstring)
  | setMode (m : AppMode)
  | setSyncIndex (n : nat)
  | setSyncIndexWith (f : nat -> nat)
  | setIsAiLoading (b : bool)
  | setNotification (msg : option jsstring).

Definition applySetter (st : AppState) (u : setter) : AppState :=
  match u with
  | setLyrics l =>
      {| lyrics := l; currentTime := currentTime st;
         activeLineId := activeLineId st; mode := mode st;
         syncIndex := syncIndex st; isAiLoading := isAiLoading st;
         notification := notification st |}
  | setCurrentTime t =>
      {| lyrics := lyrics st; currentTime := t;
         activeLineId := activeLineId st; mode := mode st;
         syncIndex := syncIndex st; isAiLoading := isAiLoading st;
         notification := notification st |}
  | setActiveLineId i =>
      {| lyrics := lyrics st; currentTime := currentTime st;
         activeLineId := Some i; mode := mode st;
         syncIndex := syncIndex st; isAiLoading := isAiLoading st;
         notification := notification st |}
  | setMode m =>
      {| lyrics := lyrics st; currentTime := currentTime st;
         activeLineId := activeLineId st; mode := m;
         syncIndex := syncIndex st; isAiLoading := isAiLoading st;
         notification := notification st |}
  | setSyncIndex n =>
      {| lyrics := lyrics st; currentTime := currentTime st;
         activeLineId := activeLineId st; mode := mode st;
         syncIndex := n; isAiLoading := isAiLoading st;
         notification := notification st |}
  | setSyncIndexWith f =>
      {| lyrics := lyrics st; currentTime := currentTime st;
         activeLineId := activeLineId st; mode := mode st;
         syncIndex := f (syncIndex st); isAiLoading := isAiLoading st;
         notification := notification st |}
  | setIsAiLoading b =>
      {| lyrics := lyrics st; currentTime := currentTime st;
         activeLineId := activeLineId st; mode := mode st;
         syncIndex := syncIndex st; isAiLoading := b;
         notification := notification st |}
  | setNotification msg =>
      {| lyrics := lyrics st; currentTime := currentTime st;
         activeLineId := activeLineId st; mode := mode st;
         syncIndex := syncIndex st; isAiLoading := isAiLoading st;
         notification := msg |}
  end.

Definition applySetters (us : list setter) (st : AppState) : AppState :=
  fold_left applySetter us st.

(** [showNotification(msg)]; the timer it starts later fires
    [notificationTimeout]. *)
Definition showNotification (msg : jsstring) : list setter :=
  [setNotification (Some msg)].

Definition notificationTimeout : list setter :=
  [setNotification None].

(** [onUpdateLyrics={setLyrics}]. *)
Definition onUpdateLyrics (call : option (list LyricLine)) : list setter :=
  match call with
  | Some l => [setLyrics l]
  | None => []
  end.

(** [reader.onload] of [handleLrcUpload]: an empty result is falsy. *)
Definition handleLrcUpload (now : nat -> N) (result : jsstring) : list setter :=
  match result with
  | [] => []
  | _ => [setLyrics (LrcParser.parseLRC now result)]
  end.

(** The exported document, and the notification. *)
Definition handleExportLrc (s : AppState) : jsstring * list setter :=
  (LrcParser.exportLRC (lyrics s),
   showNotification (str "LRC exported successfully!")).

(** The tolerance of the active-line search. *)
Definition tolerance : number := Fin 0.2%Q.

(** [[...lyrics].reverse().find((line) => line.timestamp <= time + 0.2)]. *)
Definition findActive (lyrics_ : list LyricLine) (time : number)
    : option LyricLine :=
  find (fun line => nle (timestamp line) (nadd time tolerance)) (rev lyrics_).

(** [active.id !== activeLineId]. *)
Definition differs (i : jsstring) (activeLineId_ : option jsstring) : bool :=
  match activeLineId_ with
  | Some j => negb (jsstring_eqb i j)
  | None => true
  end.

Definition handleTimeUpdate (s : AppState) (time : number) : list setter :=
  setCurrentTime time ::
  match findActive (lyrics s) time with
  | Some active =>
      if differs (id active) (activeLineId s) then [setActiveLineId (id active)]
      else []
  | None => []
  end.

Definition handleAddLine (s : AppState) (now : N) : list setter :=
  let newLine :=
    {| id := str "line-" ++ N_toString now;
       timestamp := currentTime s;
       text := [] |} in
  [setLyrics (sort byTimestamp (lyrics s ++ [newLine]))].

(** [newLyrics[i] = x] on a copy, for [i] within bounds. *)
Fixpoint assign {A : Type} (i : nat) (x : A) (l : list A) : list A :=
  match l, i with
  | [], _ => []
  | _ :: l', O => x :: l'
  | y :: l', S i' => y :: assign i' x l'
  end.

(** [playerRef.current?.getCurrentTime() || 0]; [playerRef] is [None] while
    no player is mounted. *)
Definition playerTime (playerRef : option (option number)) : number :=
  match playerRef with
  | Some wavesurfer => or0 (WaveformPlayer.getCurrentTime wavesurfer)
  | None => Fin 0
  end.

(** [handleTapSync]; the test [syncIndex < lyrics.length] is the lookup of
    [lyrics[syncIndex]]. *)
Definition handleTapSync (s : AppState) (playerRef : option (option number))
    : list setter :=
  match mode s with
  | EDIT => []
  | TAP_SYNC =>
      match nth_error (lyrics s) (syncIndex s) with
      | Some cur =>
          let updated := with_timestamp cur (playerTime playerRef) in
          [setLyrics (assign (syncIndex s) updated (lyrics s));
           setActiveLineId (id updated);
           setSyncIndexWith (fun prev => prev + 1)]
      | None => showNotification (str "End of lines reached")
      end
  end.

(** [handleAiSuggestion] up to its [await]: the setter called, and the
    context lines sent to the service. *)
Definition handleAiSuggestion_start (s : AppState) (index : nat)
    : list setter * list jsstring :=
  ([setIsAiLoading true],
   map text
     (slice (Z.to_nat (Z.max 0 (Z.of_nat index - 3))) (index + 1) (lyrics s))).

(** [handleAiSuggestion] after its [await], in the same closure: [s] is the
    state the handler was created with; [now] is [Date.now()]. *)
Definition handleAiSuggestion_resume (s : AppState) (now : N) (index : nat)
    (suggestion : jsstring) : completion (list setter) :=
  match suggestion with
  | [] => Normal [setIsAiLoading false]
  | _ =>
      match nth_error (lyrics s) index with
      | None => Throw
      | Some cur =>
          let newLine :=
            {| id := str "ai-" ++ N_toString now;
               timestamp := nadd (timestamp cur) (ofN 3);
               text := suggestion |} in
          Normal [setLyrics (splice_insert (index + 1) newLine (lyrics s));
                  setIsAiLoading false]
      end
  end.

Definition toggleMode (s : AppState) : list setter :=
  match mode s with
  | EDIT =>
      [setMode TAP_SYNC; setSyncIndex 0]
      ++ showNotification
           (str "Entered Tap Sync Mode. Press SPACE to timestamp lines.")
  | TAP_SYNC =>
      [setMode EDIT] ++ showNotification (str "Back to Edit Mode.")
  end.

(** [arr.map((x, i) => f x i)]. *)
Fixpoint mapi {A B : Type} (f : A -> nat -> B) (i : nat) (l : list A) : list B :=
  match l with
  | [] => []
  | x :: l' => f x i :: mapi f (S i) l'
  end.

(** [handlePasteLyrics]; [answer] is what [prompt] returns, [None] when it is
    dismissed. *)
Definition handlePasteLyrics (now : nat -> N) (answer : option jsstring)
    : list setter :=
  match answer with
  | None | Some [] => []
  | Some text_ =>
      let lines :=
        filter (fun t => negb (jsstring_eqb (trim t) [])) (split LF text_) in
      [setLyrics
         (mapi (fun line i =>
                  {| id := str "imported-" ++ N_toString (N.of_nat i)
                           ++ str "-" ++ N_toString (now i);
                     timestamp := Fin 0;
                     text := trim line |}) 0 lines)]
  end.

(** The events the application reacts to, with what the environment
    supplies to each. *)
Inductive event : Type :=
  | LrcLoaded (now : nat -> N) (result : jsstring)
  | ExportLrc
  | TimeUpdate (time : number)
  | AddLine (now : N)
  | TapSync (playerRef : option (option number))
  | SuggestionRequested (index : nat)
  | SuggestionArrived (now : N) (index : nat) (suggestion : jsstring)
  | ToggleMode
  | PasteLyrics (now : nat -> N) (answer : option jsstring)
  | NotificationTimeout
  | TextChange (id_ newText : jsstring)
  | Delete (id_ : jsstring)
  | TimeChange (id_ newTimeStr : jsstring)
  | KeyDown (now : N) (k : LyricEditor.key) (index : nat).

(** The setter calls of the handler of an event, evaluated in the closure
    that captured state [s]. *)
Definition handle (s : AppState) (e : event) : completion (list setter) :=
  match e with
  | LrcLoaded now result => Normal (handleLrcUpload now result)
  | ExportLrc => Normal (snd (handleExportLrc s))
  | TimeUpdate time => Normal (handleTimeUpdate s time)
  | AddLine now => Normal (handleAddLine s now)
  | TapSync playerRef => Normal (handleTapSync s playerRef)
  | SuggestionRequested index => Normal (fst (handleAiSuggestion_start s index))
  | SuggestionArrived now index suggestion =>
      handleAiSuggestion_resume s now index suggestion
  | ToggleMode => Normal (toggleMode s)
  | PasteLyrics now answer => Normal (handlePasteLyrics now answer)
  | NotificationTimeout => Normal notificationTimeout
  | TextChange id_ newText =>
      Normal (onUpdateLyrics (LyricEditor.handleTextChange (lyrics s) id_ newText))
  | Delete id_ =>
      Normal (onUpdateLyrics (LyricEditor.handleDelete (lyrics s) id_))
  | TimeChange id_ newTimeStr =>
      Normal (onUpdateLyrics (LyricEditor.handleTimeChange (lyrics s) id_ newTimeStr))
  | KeyDown now k index =>
      match LyricEditor.handleKeyDown (lyrics s) now k index with
      | Throw => Throw
      | Normal call => Normal (onUpdateLyrics call)
      end
  end.

(** An event handled by a closure that captured [captured], while the state
    is [current]. When the handler throws, the state stays as it is. *)
Definition dispatch (captured current : AppState) (e : event) : AppState :=
  match handle captured e with
  | Throw => current
  | Normal us => applySetters us current
  end.

(** An event handled by the closure of the latest render. *)
Definition react (st : AppState) (e : event) : AppState := dispatch st st e.

(** The whole of [handleAiSuggestion] when nothing happens between the
    request and the answer of the service [ai]. *)
Definition handleAiSuggestion (s : AppState) (ai : GeminiService.client)
    (now : N) (index : nat) : completion AppState :=
  let (us, contextLines) := handleAiSuggestion_start s index in
  let suggestion := GeminiService.generateLyricSuggestion ai contextLines in
  match handleAiSuggestion_resume s now index suggestion with
  | Throw => Throw
  | Normal us' => Normal (applySetters us' (applySetters us s))
  end.

End App.

(** ** Vocabulary of the properties *)

Import LrcParser GeminiService App.

(** *** Numbers and order *)

(** Two numbers denote the same value (a finite number has several
    representations as a fraction). *)
Definition same_number (a b : number) : Prop :=
  match a, b with
  | NaN, NaN => True
  | Infinity s, Infinity s' => s = s'
  | Fin p, Fin q => (p == q)%Q
  | _, _ => False
  end.


Definition le_timestamp (a b : LyricLine) : Prop :=
  nle (timestamp a) (timestamp b) = true.

(** The sequence is non-decreasing by timestamp. *)
Definition non_decreasing (l : list LyricLine) : Prop :=
  Sorted le_timestamp l.

(** No timestamp of the sequence is [NaN]. *)
Definition no_NaN (l : list LyricLine) : Prop :=
  Forall (fun x => isNaN (timestamp x) = false) l.

(** *** The documents the parser reads *)

Definition all_digits (ds : jsstring) : Prop :=
  Forall (fun c => isDigit c = true) ds.

Definition two_digits (ds : jsstring) : Prop :=
  length ds = 2 /\ all_digits ds.

Definition fraction_digits (ff : jsstring) : Prop :=
  (length ff = 2 \/ length ff = 3) /\ all_digits ff.

(** A line that starts with a bracketed timestamp: minutes [mm], seconds
    [ss], fraction [ff], and then [rest]. *)
Definition timed (mm ss ff rest : jsstring) : jsstring :=
  ch "[" :: mm ++ ch ":" :: ss ++ ch "." :: ff ++ ch "]" :: rest.

(** The number a string of digits denotes. *)
Definition value (ds : jsstring) : Q := inject_Z (Z.of_N (digitsValue ds)).

(** 100 for two digits, 1000 for three. *)
Definition scale (ff : jsstring) : Q :=
  if length ff =? 3 then 1000%Q else 100%Q.

(** minutes * 60 + seconds + fraction / scale. *)
Definition stamp (mm ss ff : jsstring) : Q :=
  (value mm * 60 + value ss + value ff / scale ff)%Q.

(** The records of the matching lines, in the order of the document. *)
Fixpoint records (now : nat -> N) (index : nat) (lines : list jsstring)
    : list LyricLine :=
  match lines with
  | [] => []
  | l :: rest =>
      match TIME_REGEXP l with
      | Some m => lineOfMatch (now index) index m :: records now (S index) rest
      | None => records now (S index) rest
      end
  end.

(** The text the words of the specification give to a matching line: all
    that follows the closing bracket, trimmed. *)
Definition remaining_text_trimmed (rest : jsstring) : jsstring := trim rest.

(** *** The documents the export writes *)

(** One line of the export. *)
Definition exportLine (l : LyricLine) : jsstring :=
  formatTime (timestamp l) ++ str " " ++ text l.

(** The three fields [formatTime] prints for a finite time. *)
Definition minutesField (q : Q) : Z := Qfloor (q / 60).

Definition secondsField (q : Q) : Z :=
  Qfloor (q - 60 * inject_Z (Qtrunc (q / 60))).

Definition hundredthsField (q : Q) : Z :=
  Qfloor ((q - 1 * inject_Z (Qtrunc (q / 1))) * 100).

(** The time cut down to hundredths of a second. *)
Definition hundredths (q : Q) : Q := (inject_Z (Qfloor (100 * q)) / 100)%Q.

(** [format] prints [z] as two digits that denote it. *)
Definition two_ok (z : Z) : bool :=
  match format (Int z) with
  | [a; b] => isDigit a && isDigit b && (Z.of_N (digitsValue [a; b]) =? z)%Z
  | _ => false
  end.

(** Lines the export can represent: a time from 0 up to 100 minutes, and a
    text on one line with no white space at either end. *)
Definition exportable (l : LyricLine) : Prop :=
  (exists q, timestamp l = Fin q /\ (0 <= q)%Q /\ (q < 6000)%Q)
  /\ Forall (fun c => isLineTerminator c = false) (text l)
  /\ trim (text l) = text l.


(** What the round trip does to a line: the text is kept and the time is
    cut down to hundredths. *)
Definition truncated (a b : LyricLine) : Prop :=
  text b = text a
  /\ exists q q',
       timestamp a = Fin q /\ timestamp b = Fin q' /\ (0 <= q)%Q
       /\ (q' == hundredths q)%Q.

(** *** The application *)

(** The line qualifies as active at [time]. *)
Definition reached (time : number) (line : LyricLine) : bool :=
  nle (timestamp line) (nadd time tolerance).

(** A run of events; each comes with the state captured by the closure
    that handles it. *)
Definition run (trace : list (AppState * event)) (st : AppState) : AppState :=
  fold_left (fun cur ce => dispatch (fst ce) cur (snd ce)) trace st.

(** The line [handleAiSuggestion] inserts. *)
Definition suggested (now : N) (base : LyricLine) (suggestion : jsstring)
    : LyricLine :=
  {| id := str "ai-" ++ N_toString now;
     timestamp := nadd (timestamp base) (ofN 3);
     text := suggestion |}.

(** The reading under which the insertion takes its base from the sequence
    as it is when the answer arrives. *)
Definition uses_current_base (current : AppState) (index : nat)
    (st' : AppState) : Prop :=
  exists base new,
    nth_error (lyrics current) index = Some base
    /\ nth_error (lyrics st') (index + 1) = Some new
    /\ same_number (timestamp new) (nadd (timestamp base) (ofN 3)).

(** What a call of [onUpdateLyrics], if any, leaves of the sequence. *)
Definition unchanged_by (lyrics_ : list LyricLine)
    (call : option (list LyricLine)) : Prop :=
  match call with
  | None => True
  | Some l => l = lyrics_
  end.

(** *** Sample sequences, documents and states *)

Definition line (i : string) (t : Q) (x : string) : LyricLine :=
  {| id := str i; timestamp := Fin t; text := str x |}.

Definition editing (l : list LyricLine) : AppState :=
  {| lyrics := l; currentTime := Fin 0; activeLineId := None; mode := EDIT;
     syncIndex := 0; isAiLoading := false; notification := None |}.

Definition three_lines : list LyricLine :=
  [line "a" 0.0 "first"; line "b" 1.5 "second"; line "c" 3.0 "third"].

Definition late_lines : list LyricLine :=
  [line "d" 2.0 "fourth"; line "e" 3.5 "fifth"].


Definition example_document : jsstring :=
  str "[00:01.50]Hello" ++ [LF] ++ str "[00:03.00]World" ++ [LF]
  ++ str "[bad line]" ++ [LF] ++ str "[00:00.00]Start".

Definition malformed_document : jsstring :=
  str "hello" ++ [LF] ++ str "[bad line]" ++ [LF] ++ [LF] ++ str "[1:02.03]x".

Definition carriage_return_inside : jsstring :=
  str "a" ++ [CR] ++ str "b".

(** The second line is active. *)
Definition playing_second : AppState :=
  {| lyrics := late_lines; currentTime := Fin 3.6;
     activeLineId := Some (str "e"); mode := EDIT; syncIndex := 0;
     isAiLoading := false; notification := None |}.

(** Two pasted lines, in edit mode after an earlier tap-sync session. *)
Definition pasted : AppState :=
  {| lyrics := [line "p0" 0 "one"; line "p1" 0 "two"];
     currentTime := Fin 0; activeLineId := None; mode := EDIT;
     syncIndex := 7; isAiLoading := false; notification := None |}.

(** The same lines in tap-sync mode. *)
Definition syncing (cursor : nat) : AppState :=
  {| lyrics := [line "p0" 0 "one"; line "p1" 0 "two"];
     currentTime := Fin 0; activeLineId := None; mode := TAP_SYNC;
     syncIndex := cursor; isAiLoading := false; notification := None |}.

Definition two_verses : AppState :=
  editing [line "v0" 1.0 "one"; line "v1" 4.0 "two"].

(** [two_verses] after both lines were moved, a request pending. *)
Definition edited_meanwhile : AppState :=
  {| lyrics := [line "v0" 5.0 "one"; line "v1" 9.0 "two"];
     currentTime := Fin 0; activeLineId := None; mode := EDIT;
     syncIndex := 0; isAiLoading := true; notification := None |}.

(** [two_verses] after both lines were deleted, a request pending. *)
Definition emptied_meanwhile : AppState :=
  {| lyrics := []; currentTime := Fin 0; activeLineId := None; mode := EDIT;
     syncIndex := 0; isAiLoading := true; notification := None |}.

Definition two_sorted : AppState :=
  editing [line "v0" 0 "one"; line "v1" 1 "two"].

(** *** Further vocabulary *)

(** The text has no white space at either end. *)
Definition trimmed (s : jsstring) : Prop := trim s = s.

(** The id [parseLRC] gives to the line of index [index]. *)
Definition lineId (index : nat) (now : N) : jsstring :=
  str "line-" ++ N_toString (N.of_nat index) ++ str "-" ++ N_toString now.

(** What every line coming out of the parser satisfies: a finite time from
    0 up to, not including, 6040 seconds, and a text on one line with no
    white space at either end. *)
Definition well_parsed (l : LyricLine) : Prop :=
  (exists q, timestamp l = Fin q /\ (0 <= q)%Q /\ (q < 6040)%Q)
  /\ Forall (fun c => isLineTerminator c = false) (text l)
  /\ trimmed (text l).

(** The lines with their timestamps replaced, in order, by the given
    times; the lines beyond the last time are kept. *)
Fixpoint retime (l : list LyricLine) (times : list number) : list LyricLine :=
  match l, times with
  | a :: l', t :: times' => with_timestamp a t :: retime l' times'
  | _, _ => l
  end.

(** A series of taps, each handled by the closure of the latest render;
    each comes with the player it reads the time from. *)
Definition tapAll (s : AppState) (taps : list (option (option number)))
    : AppState :=
  fold_left (fun st p => react st (TapSync p)) taps s.

(** The times do not decrease. *)
Definition ascending (times : list number) : Prop :=
  Sorted (fun a b => nle a b = true) times.





(** The events whose handlers call [setLyrics]. *)
Definition edits_lyrics (e : event) : bool :=
  match e with
  | ExportLrc | TimeUpdate _ | SuggestionRequested _ | ToggleMode
  | NotificationTimeout => false
  | _ => true
  end.

(** The events whose handlers call [setActiveLineId]. *)
Definition moves_highlight (e : event) : bool :=
  match e with
  | TimeUpdate _ | TapSync _ => true
  | _ => false
  end.

(** The events whose handlers call [setMode] or [setSyncIndex]. *)
Definition moves_cursor (e : event) : bool :=
  match e with
  | ToggleMode | TapSync _ => true
  | _ => false
  end.

(** The time updates of a playback: each is handled by the listener of the
    player, which calls the [handleTimeUpdate] of the render [mounted] in
    which the player was mounted. *)
Definition ticks (mounted : AppState) (times : list number) (st : AppState)
    : AppState :=
  fold_left
    (fun cur t =>
       applySetters
         (WaveformPlayer.timeupdateListener (handleTimeUpdate mounted) t) cur)
    times st.

(** *** Further samples *)


Definition pasted_text : jsstring :=
  str " one " ++ [LF] ++ str "   " ++ [LF] ++ str "two".

Definition plain_lyrics : jsstring :=
  str "Hello" ++ [LF] ++ str "World".

(** No lyrics yet, as when the audio file is loaded first. *)
Definition audio_first : AppState := editing [].

(** * Properties *)

(** ** Numbers *)

Lemma Qle_bool_false (p q : Q) : Qle_bool p q = false -> (q < p)%Q.
Proof.
  intros H. apply Qnot_le_lt. intros Hle.
  apply Qle_bool_iff in Hle. congruence.
Qed.

Lemma Qle_bool_true (p q : Q) : Qle_bool p q = true -> (p <= q)%Q.
Proof. apply Qle_bool_iff. Qed.

Lemma Qle_bool_intro (p q : Q) : (p <= q)%Q -> Qle_bool p q = true.
Proof. apply Qle_bool_iff. Qed.

Lemma Qle_bool_lt (p q : Q) : (q < p)%Q -> Qle_bool p q = false.
Proof.
  intros H. destruct (Qle_bool p q) eqn:E; [|reflexivity].
  apply Qle_bool_true in E. lra.
Qed.

Lemma nle_trans (a b c : number) :
  nle a b = true -> nle b c = true -> nle a c = true.
Proof.
  destruct a as [| [] | p], b as [| [] | q], c as [| [] | r];
    simpl; try congruence.
  intros H1 H2. apply Qle_bool_true in H1, H2. apply Qle_bool_intro. lra.
Qed.

Lemma isPositive_nsub (a b : number) :
  isNaN a = false -> isNaN b = false ->
  isPositive (nsub a b) = negb (nle a b).
Proof.
  destruct a as [| [] | p], b as [| [] | q]; simpl; try congruence; auto.
  intros _ _. unfold isPositive; simpl.
  destruct (Qle_bool p q) eqn:E.
  - apply Qle_bool_true in E. simpl. apply negb_false_iff.
    apply Qle_bool_intro. lra.
  - apply Qle_bool_false in E. simpl. apply negb_true_iff.
    apply Qle_bool_lt. lra.
Qed.

Lemma nle_not_NaN (a b : number) :
  nle a b = true -> isNaN a = false /\ isNaN b = false.
Proof. destruct a as [| [] | p], b as [| [] | q]; simpl; auto; congruence. Qed.

Lemma nle_total (a b : number) :
  isNaN a = false -> isNaN b = false -> nle a b = false -> nle b a = true.
Proof.
  destruct a as [| [] | p], b as [| [] | q]; simpl; try congruence; auto.
  intros _ _ H. apply Qle_bool_false in H. apply Qle_bool_intro. lra.
Qed.

Lemma nlt_not_nle (a b : number) : nlt a b = true -> nle b a = false.
Proof.
  destruct a as [| [] | p], b as [| [] | q]; simpl; try congruence; auto.
  intros H. apply negb_true_iff in H. exact H.
Qed.

(** ** Sorting *)

Section SortFacts.
Context {A : Type} (cmp : A -> A -> number).
Context (R : A -> A -> Prop) (P : A -> Prop).
Hypothesis after : forall x y,
  P x -> P y -> isPositive (cmp x y) = true -> R y x.
Hypothesis before : forall x y,
  P x -> P y -> isPositive (cmp x y) = false -> R x y.

Lemma insert_Permutation (x : A) (l : list A) :
  Permutation (insert cmp x l) (x :: l).
Proof.
  induction l as [|y l IH]; simpl; [reflexivity|].
  destruct (isPositive (cmp x y)); [|reflexivity].
  rewrite IH. apply perm_swap.
Qed.

Lemma sort_Permutation (l : list A) : Permutation (sort cmp l) l.
Proof.
  induction l as [|x l IH]; simpl; [reflexivity|].
  rewrite insert_Permutation. now constructor.
Qed.

Lemma insert_HdRel (a x : A) (l : list A) :
  R a x -> HdRel R a l -> HdRel R a (insert cmp x l).
Proof.
  intros Hax Hal. destruct l as [|y l]; simpl.
  - now constructor.
  - destruct (isPositive (cmp x y)).
    + inversion Hal; subst. now constructor.
    + now constructor.
Qed.

Lemma insert_Sorted (x : A) (l : list A) :
  P x -> Forall P l -> Sorted R l -> Sorted R (insert cmp x l).
Proof.
  intros Px Pl Hs. induction l as [|y l IH]; simpl.
  - repeat constructor.
  - inversion Pl; subst. inversion Hs; subst.
    destruct (isPositive (cmp x y)) eqn:E.
    + constructor; [now apply IH|].
      apply insert_HdRel; [now apply after|assumption].
    + constructor; [assumption|]. constructor. now apply before.
Qed.

Lemma sort_Sorted (l : list A) : Forall P l -> Sorted R (sort cmp l).
Proof.
  induction 1 as [|x l Px Pl IH]; simpl; [constructor|].
  apply insert_Sorted; try assumption.
  eapply Permutation_Forall; [|exact Pl].
  symmetry. apply sort_Permutation.
Qed.

Lemma sort_of_Sorted (l : list A) :
  (forall x y, R x y -> isPositive (cmp x y) = false) ->
  Sorted R l -> sort cmp l = l.
Proof.
  intros HR. induction 1 as [|x l Hs IH Hd]; simpl; [reflexivity|].
  rewrite IH. destruct Hd as [|y l' Hxy]; simpl; [reflexivity|].
  now rewrite (HR _ _ Hxy).
Qed.
End SortFacts.

Lemma sort_byTimestamp_non_decreasing (l : list LyricLine) :
  no_NaN l -> non_decreasing (sort byTimestamp l).
Proof.
  apply sort_Sorted; intros x y Px Py H; unfold byTimestamp, le_timestamp in *;
    rewrite isPositive_nsub in H by assumption.
  - apply negb_true_iff in H. now apply nle_total.
  - now apply negb_false_iff in H.
Qed.

Lemma sort_byTimestamp_id (l : list LyricLine) :
  non_decreasing l -> sort byTimestamp l = l.
Proof.
  apply sort_of_Sorted. intros x y H. unfold byTimestamp, le_timestamp in *.
  destruct (nle_not_NaN _ _ H) as [Hx Hy].
  rewrite isPositive_nsub by assumption. now rewrite H.
Qed.

Lemma le_timestamp_trans : Relations_1.Transitive le_timestamp.
Proof. intros a b c. apply nle_trans. Qed.

(** ** The active line *)

Lemma find_all_false {A : Type} (f : A -> bool) (l : list A) :
  (forall x, In x l -> f x = false) -> find f l = None.
Proof.
  induction l as [|a l IH]; simpl; intros H; [reflexivity|].
  rewrite (H a) by now left. apply IH. intros x Hx. apply H. now right.
Qed.

Lemma find_rev_last {A : Type} (f : A -> bool) (l : list A) :
  (exists x, In x l /\ f x = true) ->
  exists pre x post,
    l = pre ++ x :: post /\ f x = true
    /\ Forall (fun y => f y = false) post /\ find f (rev l) = Some x.
Proof.
  induction l as [|a l IH] using rev_ind; intros [x [Hin Hfx]].
  - destruct Hin.
  - rewrite rev_app_distr; simpl. destruct (f a) eqn:Ea.
    + exists l, a, []. repeat split; auto.
    + apply in_app_or in Hin. destruct Hin as [Hin | [<- | []]];
        [|congruence].
      destruct IH as (pre & y & post & -> & Hy & Hpost & Hfind);
        [now exists x|].
      exists pre, y, (post ++ [a]). repeat split; auto.
      * now rewrite <- app_assoc.
      * apply Forall_app. split; [assumption|]. now repeat constructor.
Qed.

(** C4. The active-line search returns nothing on the empty sequence and
    when [time + 0.2] is below every timestamp; as soon as some line has a
    timestamp at most [time + 0.2] it returns the last such line of the
    sequence, whose id becomes the active id. With timestamps 0.0, 1.5 and
    3.0 the time 1.6 gives the line at 1.5 and the time 3.3 the line at
    3.0. *)
Theorem findActive_correct (lyrics_ : list LyricLine) (time : number) :
  findActive [] time = None
  /\ ((forall l, In l lyrics_ ->
         nlt (nadd time tolerance) (timestamp l) = true) ->
      findActive lyrics_ time = None)
  /\ ((exists l, In l lyrics_ /\ reached time l = true) ->
      exists pre l post,
        lyrics_ = pre ++ l :: post /\ reached time l = true
        /\ Forall (fun x => reached time x = false) post
        /\ findActive lyrics_ time = Some l)
  /\ option_map id (findActive three_lines (Fin 1.6)) = Some (str "b")
  /\ option_map id (findActive three_lines (Fin 3.3)) = Some (str "c").
Proof.
  split; [reflexivity|]. split; [|split; [|split; reflexivity]].
  - intros H. apply find_all_false. intros x Hx.
    apply nlt_not_nle, H. now apply in_rev.
  - apply find_rev_last.
Qed.

Lemma findActive_correct_witness :
  findActive late_lines (Fin 1.0) = None
  /\ exists pre l post,
       three_lines = pre ++ l :: post /\ reached (Fin 1.6) l = true
       /\ Forall (fun x => reached (Fin 1.6) x = false) post
       /\ findActive three_lines (Fin 1.6) = Some l.
Proof.
  destruct (findActive_correct late_lines (Fin 1.0)) as (_ & Hnone & _).
  destruct (findActive_correct three_lines (Fin 1.6)) as (_ & _ & Hlast & _).
  split.
  - apply Hnone. intros l Hl. simpl in Hl.
    destruct Hl as [<- | [<- | []]]; reflexivity.
  - apply Hlast. exists (line "b" 1.5 "second"). split; [|reflexivity].
    simpl. auto.
Defined.

Lemma applySetters_keeps_active (us : list setter) (st : AppState) :
  activeLineId st <> None -> activeLineId (applySetters us st) <> None.
Proof.
  revert st. induction us as [|u us IH]; intros st H; simpl; [assumption|].
  apply IH. destruct u; simpl; congruence.
Qed.

Lemma dispatch_keeps_active (captured current : AppState) (e : event) :
  activeLineId current <> None ->
  activeLineId (dispatch captured current e) <> None.
Proof.
  intros H. unfold dispatch. destruct (handle captured e); [assumption|].
  now apply applySetters_keeps_active.
Qed.

Lemma findActive_In (l : list LyricLine) (time : number) (x : LyricLine) :
  findActive l time = Some x -> In x l.
Proof.
  intros H. apply find_some in H. destruct H as [H _]. now apply in_rev.
Qed.

(** C10. A time update for which no line has a timestamp at most
    [time + 0.2] leaves the active id as it was; a time update changes the
    active id only to the id of a line; and along any run of events an
    active id that is set is never reset to none. *)
Theorem active_line_never_cleared :
  (forall captured current time,
     (forall l, In l (lyrics captured) -> reached time l = false) ->
     activeLineId (dispatch captured current (TimeUpdate time))
     = activeLineId current)
  /\ (forall captured current time,
        let st' := dispatch captured current (TimeUpdate time) in
        activeLineId st' = activeLineId current
        \/ exists l, In l (lyrics captured) /\ activeLineId st' = Some (id l))
  /\ (forall trace st,
        activeLineId st <> None -> activeLineId (run trace st) <> None).
Proof.
  split; [|split].
  - intros captured current time H.
    unfold dispatch; simpl. unfold handleTimeUpdate.
    assert (E : findActive (lyrics captured) time = None).
    { apply find_all_false. intros x Hx. apply H. now apply in_rev. }
    now rewrite E.
  - intros captured current time. unfold dispatch; simpl.
    unfold handleTimeUpdate.
    destruct (findActive (lyrics captured) time) as [active|] eqn:E;
      [|now left].
    destruct (differs (id active) (activeLineId captured)); [|now left].
    right. exists active. split; [|reflexivity].
    now apply findActive_In with time.
  - intros trace. unfold run.
    induction trace as [|[c e] trace IH]; intros st H; simpl; [assumption|].
    apply IH. now apply dispatch_keeps_active.
Qed.

Lemma active_line_never_cleared_witness :
  activeLineId (dispatch playing_second playing_second (TimeUpdate (Fin 0.5)))
  = Some (str "e")
  /\ activeLineId
       (run [(playing_second, TimeUpdate (Fin 0.5));
             (playing_second, Delete (str "e"));
             (playing_second, TimeUpdate (Fin 1.0))] playing_second)
     <> None.
Proof.
  destruct active_line_never_cleared as (Hkeep & _ & Hrun).
  split.
  - apply (Hkeep playing_second playing_second (Fin 0.5)).
    intros l Hl. simpl in Hl. destruct Hl as [<- | [<- | []]]; reflexivity.
  - apply Hrun. simpl. discriminate.
Defined.

(** ** Tap-sync *)

Lemma nth_error_assign_same {A : Type} (i : nat) (x y : A) (l : list A) :
  nth_error l i = Some y -> nth_error (assign i x l) i = Some x.
Proof.
  revert i. induction l as [|a l IH]; intros [|i]; simpl; try discriminate.
  - reflexivity.
  - apply IH.
Qed.

Lemma nth_error_assign_other {A : Type} (i j : nat) (x : A) (l : list A) :
  j <> i -> nth_error (assign i x l) j = nth_error l j.
Proof.
  revert i j. induction l as [|a l IH]; intros [|i] [|j] H; simpl;
    try reflexivity.
  - congruence.
  - apply IH. congruence.
Qed.

Lemma length_assign {A : Type} (i : nat) (x : A) (l : list A) :
  length (assign i x l) = length l.
Proof.
  revert i. induction l as [|a l IH]; intros [|i]; simpl; auto.
Qed.

Lemma or0_idempotent (x : number) : same_number (or0 (or0 x)) (or0 x).
Proof.
  destruct x as [| s | q]; simpl; try reflexivity.
  unfold or0; simpl. destruct (Qis0 q) eqn:E; simpl.
  - reflexivity.
  - rewrite E. simpl. reflexivity.
Qed.

Lemma playerTime_port (wavesurfer : option number) :
  same_number (playerTime (Some wavesurfer))
    (WaveformPlayer.getCurrentTime wavesurfer).
Proof.
  destruct wavesurfer as [t|]; simpl.
  - apply or0_idempotent.
  - reflexivity.
Qed.

(** C5. Entering tap-sync mode sets the cursor to 0 whatever it was. A tap
    with the cursor on a line overwrites the timestamp of that line, and of
    no other, with the time read from the player, which is the current time
    of the playback port; it makes the line active at once and moves the
    cursor forward by one. A tap with the cursor at the length leaves
    sequence and cursor as they are and shows the end-of-lines notice. *)
Theorem tap_sync_machine :
  (forall s,
     mode s = EDIT ->
     let st' := react s ToggleMode in
     mode st' = TAP_SYNC /\ syncIndex st' = 0)
  /\ (forall s playerRef cur,
        mode s = TAP_SYNC ->
        nth_error (lyrics s) (syncIndex s) = Some cur ->
        let st' := react s (TapSync playerRef) in
        nth_error (lyrics st') (syncIndex s)
        = Some (with_timestamp cur (playerTime playerRef))
        /\ (forall j, j <> syncIndex s ->
              nth_error (lyrics st') j = nth_error (lyrics s) j)
        /\ length (lyrics st') = length (lyrics s)
        /\ activeLineId st' = Some (id cur)
        /\ syncIndex st' = syncIndex s + 1)
  /\ (forall wavesurfer,
        same_number (playerTime (Some wavesurfer))
          (WaveformPlayer.getCurrentTime wavesurfer))
  /\ (forall s playerRef,
        mode s = TAP_SYNC ->
        syncIndex s = length (lyrics s) ->
        let st' := react s (TapSync playerRef) in
        lyrics st' = lyrics s /\ syncIndex st' = syncIndex s
        /\ notification st' = Some (str "End of lines reached")).
Proof.
  split; [|split; [|split]].
  - intros s Hm. unfold react, dispatch; simpl. unfold toggleMode.
    rewrite Hm. simpl. auto.
  - intros s playerRef cur Hm Hcur. unfold react, dispatch; simpl.
    unfold handleTapSync. rewrite Hm, Hcur. simpl.
    split; [now apply nth_error_assign_same with cur|].
    split; [intros j Hj; now apply nth_error_assign_other|].
    split; [apply length_assign|]. auto.
  - exact playerTime_port.
  - intros s playerRef Hm Hend. unfold react, dispatch; simpl.
    unfold handleTapSync. rewrite Hm.
    assert (E : nth_error (lyrics s) (syncIndex s) = None).
    { apply nth_error_None. lia. }
    rewrite E. simpl. auto.
Qed.

Lemma tap_sync_machine_witness :
  syncIndex (react pasted ToggleMode) = 0
  /\ nth_error (lyrics (react (syncing 1) (TapSync (Some (Some (Fin 4.25)))))) 1
     = Some (line "p1" 4.25 "two")
  /\ syncIndex (react (syncing 1) (TapSync (Some (Some (Fin 4.25))))) = 2
  /\ lyrics (react (syncing 2) (TapSync (Some (Some (Fin 4.25)))))
     = lyrics (syncing 2).
Proof.
  destruct tap_sync_machine as (Henter & Htap & _ & Hend).
  destruct (Htap (syncing 1) (Some (Some (Fin 4.25))) (line "p1" 0 "two"))
    as (Hline & _ & _ & _ & Hcursor); [reflexivity | reflexivity |].
  split; [|split; [|split]].
  - apply (Henter pasted). reflexivity.
  - exact Hline.
  - exact Hcursor.
  - apply (Hend (syncing 2) (Some (Some (Fin 4.25)))); reflexivity.
Defined.

(** ** The suggestion workflow *)

Lemma lyrics_applySetters_loading (b : bool) (st : AppState) :
  lyrics (applySetters [setIsAiLoading b] st) = lyrics st.
Proof. reflexivity. Qed.

Lemma messages_not_empty : missingKeyMessage <> [] /\ errorMessage <> [].
Proof. split; discriminate. Qed.

(** C8. When the suggestion is the empty string the sequence is left as it
    is; when it is any other string, the placeholders returned without an
    API key or on a service error included, a line with that text and the
    timestamp of the requested line plus 3 is inserted right after the
    requested index. *)
Theorem suggestion_insertion_policy (s : AppState) (ai : client) (now : N)
    (index : nat) (cur : LyricLine) :
  nth_error (lyrics s) index = Some cur ->
  let suggestion :=
    generateLyricSuggestion ai (snd (handleAiSuggestion_start s index)) in
  exists st',
    handleAiSuggestion s ai now index = Normal st'
    /\ (suggestion = [] -> lyrics st' = lyrics s)
    /\ (suggestion <> [] ->
        lyrics st'
        = firstn (index + 1) (lyrics s)
          ++ suggested now cur suggestion :: skipn (index + 1) (lyrics s))
    /\ (ai = None -> suggestion = missingKeyMessage /\ suggestion <> [])
    /\ (forall generateContent,
          ai = Some generateContent ->
          generateContent (snd (handleAiSuggestion_start s index)) = Rejected ->
          suggestion = errorMessage /\ suggestion <> []).
Proof.
  intros Hcur. cbv zeta.
  unfold handleAiSuggestion, handleAiSuggestion_start. cbn [snd].
  set (ctx := map text _).
  destruct messages_not_empty as [Hkey Herr].
  unfold handleAiSuggestion_resume. rewrite Hcur.
  destruct (generateLyricSuggestion ai ctx) as [|c r] eqn:E.
  - eexists. split; [reflexivity|]. split; [reflexivity|].
    split; [congruence|]. split.
    + intros ->. simpl in E. congruence.
    + intros g -> Hg. simpl in E. rewrite Hg in E. congruence.
  - eexists. split; [reflexivity|]. split; [discriminate|].
    split; [reflexivity|]. split.
    + intros ->. simpl in E. rewrite <- E. auto.
    + intros g -> Hg. simpl in E. rewrite Hg in E. rewrite <- E. auto.
Qed.

Lemma suggestion_insertion_policy_witness :
  exists st',
    handleAiSuggestion two_verses None 99 0 = Normal st'
    /\ lyrics st'
       = [line "v0" 1.0 "one";
          suggested 99 (line "v0" 1.0 "one") missingKeyMessage;
          line "v1" 4.0 "two"].
Proof.
  destruct (suggestion_insertion_policy two_verses None 99 0
              (line "v0" 1.0 "one") eq_refl)
    as (st' & Hrun & _ & Hins & _).
  exists st'. split; [exact Hrun|]. apply Hins. discriminate.
Defined.

(** C3, as amended. A suggestion requested at an index of the sequence
    completes without failure whatever the state has become in the
    meantime; it reads the sequence captured when the request was issued:
    the inserted line takes its base timestamp from that sequence, and the
    sequence installed is the captured one with the line inserted, or the
    current one when the suggestion is empty. *)
Theorem suggestion_completion_uses_captured (captured current : AppState)
    (now : N) (index : nat) (suggestion : jsstring) (base : LyricLine) :
  nth_error (lyrics captured) index = Some base ->
  exists us,
    handleAiSuggestion_resume captured now index suggestion = Normal us
    /\ let st' := applySetters us current in
       isAiLoading st' = false
       /\ (suggestion = [] -> lyrics st' = lyrics current)
       /\ (suggestion <> [] ->
           lyrics st'
           = splice_insert (index + 1) (suggested now base suggestion)
               (lyrics captured)).
Proof.
  intros Hbase. unfold handleAiSuggestion_resume. rewrite Hbase.
  destruct suggestion as [|c r].
  - eexists. split; [reflexivity|]. simpl. repeat split; congruence.
  - eexists. split; [reflexivity|]. simpl. repeat split; congruence.
Qed.

Lemma suggestion_completion_uses_captured_witness :
  lyrics (dispatch two_verses emptied_meanwhile
            (SuggestionArrived 99 0 (str "three")))
  = [line "v0" 1.0 "one";
     suggested 99 (line "v0" 1.0 "one") (str "three");
     line "v1" 4.0 "two"].
Proof.
  destruct (suggestion_completion_uses_captured two_verses emptied_meanwhile
              99 0 (str "three") (line "v0" 1.0 "one") eq_refl)
    as (us & Hus & _ & _ & Hins).
  unfold dispatch.
  change (handle two_verses (SuggestionArrived 99 0 (str "three")))
    with (handleAiSuggestion_resume two_verses 99 0 (str "three")).
  rewrite Hus. apply Hins. discriminate.
Defined.

(** The answer arrives after the first line was moved from 1.0 to 5.0: the
    inserted line is timed 4.0, from the captured 1.0, not 8.0. *)
Lemma suggestion_base_is_not_current :
  ~ uses_current_base edited_meanwhile 0
      (dispatch two_verses edited_meanwhile
         (SuggestionArrived 99 0 (str "three"))).
Proof.
  intros (base & new & Hbase & Hnew & Hsame).
  vm_compute in Hbase, Hnew. injection Hbase as <-. injection Hnew as <-.
  vm_compute in Hsame. discriminate.
Qed.

(** ** Editing a timestamp *)

(** The input [-1:30] denotes a negative time, minus 30 seconds, and is
    written to the line. *)
Lemma negative_time_is_stored :
  parseFloat (str "-1") = Fin (-1)
  /\ LyricEditor.handleTimeChange [line "a" 5 "x"] (str "a") (str "-1:30")
     = Some [line "a" (-30) "x"]
  /\ ~ unchanged_by [line "a" 5 "x"]
         (LyricEditor.handleTimeChange [line "a" 5 "x"] (str "a") (str "-1:30")).
Proof.
  split; [reflexivity|]. split; [reflexivity|].
  vm_compute. discriminate.
Qed.

(** An input whose parts only begin with a number is accepted as well. *)
Example lenient_time_is_stored :
  LyricEditor.handleTimeChange [line "a" 5 "x"] (str "a") (str "1x:2y")
  = Some [line "a" 62 "x"].
Proof. reflexivity. Qed.

(** C7, as amended. An input that does not split on the colon into exactly
    two parts, or one of whose parts [parseFloat] reads as [NaN], makes no
    update at all. An input whose two parts are read as numbers is applied
    whatever its sign: the time minutes * 60 + seconds is written to the
    line and the sequence is sorted again. *)
Theorem handleTimeChange_rejects (lyrics_ : list LyricLine)
    (id_ newTimeStr : jsstring) :
  (length (split (ch ":") newTimeStr) <> 2 ->
   LyricEditor.handleTimeChange lyrics_ id_ newTimeStr = None)
  /\ (forall part0 part1,
        split (ch ":") newTimeStr = [part0; part1] ->
        parseFloat part0 = NaN \/ parseFloat part1 = NaN ->
        LyricEditor.handleTimeChange lyrics_ id_ newTimeStr = None)
  /\ (forall part0 part1,
        split (ch ":") newTimeStr = [part0; part1] ->
        parseFloat part0 <> NaN -> parseFloat part1 <> NaN ->
        LyricEditor.handleTimeChange lyrics_ id_ newTimeStr
        = Some (sort byTimestamp
                  (map (fun l =>
                          if jsstring_eqb (id l) id_ then
                            with_timestamp l
                              (nadd (nmul (parseFloat part0) (ofN 60))
                                 (parseFloat part1))
                          else l) lyrics_))).
Proof.
  unfold LyricEditor.handleTimeChange. split; [|split].
  - intros H. destruct (split (ch ":") newTimeStr) as [|p0 [|p1 [|p2 r]]];
      simpl in H; congruence.
  - intros p0 p1 -> [H | H]; rewrite H; simpl; [reflexivity|].
    now rewrite andb_false_r.
  - intros p0 p1 -> H0 H1.
    destruct (parseFloat p0), (parseFloat p1); simpl; congruence.
Qed.

Lemma handleTimeChange_rejects_witness :
  LyricEditor.handleTimeChange [line "a" 5 "x"] (str "a") (str "1:2:3") = None
  /\ LyricEditor.handleTimeChange [line "a" 5 "x"] (str "a") (str "1:abc")
     = None
  /\ LyricEditor.handleTimeChange [line "a" 5 "x"; line "b" 6 "y"] (str "b")
       (str "-1:30")
     = Some [line "b" (-30) "y"; line "a" 5 "x"].
Proof.
  split; [|split].
  - apply (handleTimeChange_rejects [line "a" 5 "x"] (str "a") (str "1:2:3")).
    simpl. discriminate.
  - apply (handleTimeChange_rejects [line "a" 5 "x"] (str "a") (str "1:abc"))
      with (part0 := str "1") (part1 := str "abc"); [reflexivity|].
    right. reflexivity.
  - destruct (handleTimeChange_rejects [line "a" 5 "x"; line "b" 6 "y"]
                (str "b") (str "-1:30")) as (_ & _ & H).
    rewrite (H (str "-1") (str "30")); [reflexivity | reflexivity | |];
      discriminate.
Defined.

(** ** Sortedness *)

Lemma filter_non_decreasing (f : LyricLine -> bool) (l : list LyricLine) :
  non_decreasing l -> non_decreasing (filter f l).
Proof.
  intros H. apply StronglySorted_Sorted.
  apply Sorted_StronglySorted in H; [|exact le_timestamp_trans].
  induction H as [|x l Hs IH Hall]; simpl; [constructor|].
  destruct (f x); [|assumption].
  constructor; [assumption|].
  apply Forall_forall. intros y Hy. apply filter_In in Hy.
  destruct Hy as [Hy _]. revert y Hy. now apply Forall_forall.
Qed.

(** Enter on the first of two lines timed 0 and 1 puts a line timed 2
    between them. *)
Lemma enter_breaks_order :
  lyrics (react two_sorted (KeyDown 99 LyricEditor.Enter 0))
  = [line "v0" 0 "one";
     {| id := str "line-99"; timestamp := Fin (0 + 2); text := [] |};
     line "v1" 1 "two"]
  /\ non_decreasing (lyrics two_sorted)
  /\ ~ non_decreasing (lyrics (react two_sorted (KeyDown 99 LyricEditor.Enter 0))).
Proof.
  split; [reflexivity|]. split.
  - repeat constructor.
  - intros H. vm_compute in H.
    inversion H as [|? ? H1 _]; subst. inversion H1 as [|? ? _ H2]; subst.
    inversion H2 as [|? ? H3]; subst. vm_compute in H3. discriminate.
Qed.

(** A tap that stamps the first of two lines timed 0 with the time 4.25
    leaves it before the second. *)
Example tap_breaks_order :
  ~ non_decreasing
      (lyrics (react (syncing 0) (TapSync (Some (Some (Fin 4.25)))))).
Proof.
  intros H. vm_compute in H.
  inversion H as [|? ? _ H2]; subst.
  inversion H2 as [|? ? H3]; subst. vm_compute in H3. discriminate.
Qed.

(** A suggestion after the first of two lines timed 0 and 1 is timed 3. *)
Example suggestion_breaks_order :
  ~ non_decreasing
      (lyrics (dispatch two_sorted two_sorted
                 (SuggestionArrived 99 0 (str "three")))).
Proof.
  intros H. vm_compute in H.
  inversion H as [|? ? H1 _]; subst. inversion H1 as [|? ? _ H2]; subst.
  inversion H2 as [|? ? H3]; subst. vm_compute in H3. discriminate.
Qed.

(** C2, as amended. After a manual timestamp edit and after Add Line the
    sequence is non-decreasing by timestamp, provided no timestamp is
    [NaN]; deleting a line keeps a non-decreasing sequence non-decreasing.
    The tap-sync overwrite, the Enter-key insertion and the suggestion
    insertion do not sort. *)
Theorem sorting_mutations_non_decreasing :
  (forall lyrics_ id_ newTimeStr l',
     LyricEditor.handleTimeChange lyrics_ id_ newTimeStr = Some l' ->
     no_NaN l' -> non_decreasing l')
  /\ (forall s now,
        no_NaN (lyrics s) -> isNaN (currentTime s) = false ->
        non_decreasing (lyrics (react s (AddLine now))))
  /\ (forall lyrics_ id_ l',
        non_decreasing lyrics_ ->
        LyricEditor.handleDelete lyrics_ id_ = Some l' ->
        non_decreasing l').
Proof.
  split; [|split].
  - intros lyrics_ id_ newTimeStr l' H Hnan.
    unfold LyricEditor.handleTimeChange in H.
    destruct (split (ch ":") newTimeStr) as [|p0 [|p1 [|p2 r]]];
      try discriminate.
    destruct (negb (isNaN (parseFloat p0)) && negb (isNaN (parseFloat p1)));
      [|discriminate].
    injection H as <-. apply sort_byTimestamp_non_decreasing.
    eapply Permutation_Forall; [|exact Hnan].
    apply (sort_Permutation byTimestamp).
  - intros s now Hnan Hcur. unfold react, dispatch; simpl.
    apply sort_byTimestamp_non_decreasing. apply Forall_app. split;
      [assumption|]. now repeat constructor.
  - intros lyrics_ id_ l' Hs H. injection H as <-.
    now apply filter_non_decreasing.
Qed.

Lemma sorting_mutations_non_decreasing_witness :
  non_decreasing [line "b" (-30) "y"; line "a" 5 "x"]
  /\ non_decreasing (lyrics (react two_sorted (AddLine 99)))
  /\ non_decreasing [line "v1" 1 "two"].
Proof.
  destruct sorting_mutations_non_decreasing as (Hedit & Hadd & Hdel).
  split; [|split].
  - apply (Hedit [line "a" 5 "x"; line "b" 6 "y"] (str "b") (str "-1:30"));
      [reflexivity|]. repeat constructor.
  - apply Hadd; [repeat constructor | reflexivity].
  - apply (Hdel (lyrics two_sorted) (str "v0")); [repeat constructor|].
    reflexivity.
Defined.

(** ** Strings *)

Ltac decide_chars :=
  repeat match goal with
    | |- context [N.eqb ?a ?b] => destruct (N.eqb_spec a b); [lia|]
    | |- context [N.leb ?a ?b] => destruct (N.leb_spec a b); try lia
    end.

Lemma isDigit_range (c : char) : isDigit c = true -> (48 <= c <= 57)%N.
Proof.
  unfold isDigit. intros H. apply andb_true_iff in H. destruct H as [H1 H2].
  apply N.leb_le in H1, H2. lia.
Qed.

Lemma digit_not_space (c : char) : isDigit c = true -> isStrWhiteSpace c = false.
Proof.
  intros H. apply isDigit_range in H.
  unfold isStrWhiteSpace, isWhiteSpace, isLineTerminator, char_in; simpl.
  decide_chars; reflexivity.
Qed.

Lemma digit_not_sign (c : char) :
  isDigit c = true -> (c =? ch "-")%N = false /\ (c =? ch "+")%N = false.
Proof.
  intros H. apply isDigit_range in H. unfold ch; simpl.
  split; decide_chars; reflexivity.
Qed.

Lemma closing_not_digit : isDigit (ch "]") = false.
Proof. reflexivity. Qed.

Lemma spanDigits_all (ds : jsstring) :
  all_digits ds -> spanDigits ds = (ds, []).
Proof.
  induction 1 as [|c ds Hc _ IH]; simpl; [reflexivity|].
  now rewrite Hc, IH.
Qed.

Lemma parseInt10_digits (c : char) (ds : jsstring) :
  all_digits (c :: ds) -> parseInt10 (c :: ds) = ofN (digitsValue (c :: ds)).
Proof.
  intros H. assert (Hc : isDigit c = true) by now inversion H.
  unfold parseInt10, spanSign. simpl trimStart.
  rewrite (digit_not_space c Hc).
  destruct (digit_not_sign c Hc) as [-> ->].
  now rewrite (spanDigits_all _ H).
Qed.

Lemma trimStart_app_space (c : char) (s : jsstring) :
  isStrWhiteSpace c = true -> trim (c :: s) = trim s.
Proof. intros H. unfold trim. simpl. now rewrite H. Qed.

Lemma dotStar_no_terminator (s : jsstring) :
  Forall (fun c => isLineTerminator c = false) s -> dotStar s = s.
Proof.
  induction 1 as [|c s Hc _ IH]; simpl; [reflexivity|].
  now rewrite Hc, IH.
Qed.

Lemma split_no_sep (sep : char) (s : jsstring) :
  Forall (fun c => (c =? sep)%N = false) s -> split sep s = [s].
Proof.
  induction 1 as [|c s Hc _ IH]; simpl; [reflexivity|].
  now rewrite Hc, IH.
Qed.

Lemma split_app_sep (sep : char) (s t : jsstring) :
  Forall (fun c => (c =? sep)%N = false) s ->
  split sep (s ++ sep :: t) = s :: split sep t.
Proof.
  induction 1 as [|c s Hc _ IH]; simpl.
  - now rewrite N.eqb_refl.
  - now rewrite Hc, IH.
Qed.

Lemma split_join (sep : char) (parts : list jsstring) :
  parts <> [] ->
  Forall (Forall (fun c => (c =? sep)%N = false)) parts ->
  split sep (join [sep] parts) = parts.
Proof.
  intros Hne H. revert Hne.
  induction H as [|p ps Hp Hps IH]; intros Hne; [now destruct Hne|].
  destruct ps as [|p' ps]; simpl.
  - now apply split_no_sep.
  - change (p ++ [sep] ++ join [sep] (p' :: ps))
      with (p ++ sep :: join [sep] (p' :: ps)).
    rewrite split_app_sep by assumption. f_equal. apply IH. discriminate.
Qed.

(** ** The parser *)

Lemma forEachLine_records (now : nat -> N) (index : nat)
    (lines : list jsstring) (result : list LyricLine) :
  forEachLine now index lines result = result ++ records now index lines.
Proof.
  revert index result. induction lines as [|l lines IH]; intros index result;
    simpl.
  - now rewrite app_nil_r.
  - rewrite IH. destruct (TIME_REGEXP l); [|reflexivity].
    now rewrite <- app_assoc.
Qed.

Lemma parseLRC_records (now : nat -> N) (content : jsstring) :
  parseLRC now content = sort byTimestamp (records now 0 (split LF content)).
Proof. unfold parseLRC. now rewrite forEachLine_records. Qed.

Lemma expect_Some (c : char) (s r : jsstring) :
  expect c s = Some r -> s = c :: r.
Proof.
  destruct s as [|d s]; simpl; [discriminate|].
  destruct (N.eqb_spec d c); [|discriminate]. intros H. congruence.
Qed.

Lemma digits_Some (n : nat) (s ds r : jsstring) :
  digits n s = Some (ds, r) -> s = ds ++ r /\ length ds = n /\ all_digits ds.
Proof.
  revert s ds r. induction n as [|n IH]; intros s ds r; simpl.
  - intros H. injection H as <- <-. repeat split. constructor.
  - destruct s as [|c s]; [discriminate|].
    destruct (isDigit c) eqn:Hc; [|discriminate].
    destruct (digits n s) as [[ds' r']|] eqn:E; [|discriminate].
    intros H. injection H as <- <-.
    destruct (IH _ _ _ E) as (-> & <- & Hall).
    repeat split. now constructor.
Qed.

Lemma digits_all (ds r : jsstring) :
  all_digits ds -> digits (length ds) (ds ++ r) = Some (ds, r).
Proof.
  induction 1 as [|c ds Hc _ IH]; simpl; [reflexivity|].
  now rewrite Hc, IH.
Qed.

Lemma fraction_Some (s f r : jsstring) :
  fraction s = Some (f, r) -> s = f ++ ch "]" :: r /\ fraction_digits f.
Proof.
  unfold fraction.
  destruct (digits 3 s) as [[f3 r3]|] eqn:E3.
  - destruct (expect (ch "]") r3) as [r3'|] eqn:X3.
    + intros H. injection H as <- <-.
      apply digits_Some in E3. destruct E3 as (-> & Hlen & Hall).
      apply expect_Some in X3. subst r3. repeat split; auto.
    + destruct (digits 2 s) as [[f2 r2]|] eqn:E2; [|discriminate].
      destruct (expect (ch "]") r2) as [r2'|] eqn:X2; [|discriminate].
      intros H. injection H as <- <-.
      apply digits_Some in E2. destruct E2 as (-> & Hlen & Hall).
      apply expect_Some in X2. subst r2. repeat split; auto.
  - destruct (digits 2 s) as [[f2 r2]|] eqn:E2; [|discriminate].
    destruct (expect (ch "]") r2) as [r2'|] eqn:X2; [|discriminate].
    intros H. injection H as <- <-.
    apply digits_Some in E2. destruct E2 as (-> & Hlen & Hall).
    apply expect_Some in X2. subst r2. repeat split; auto.
Qed.

Lemma fraction_digits_ok (f r : jsstring) :
  fraction_digits f -> fraction (f ++ ch "]" :: r) = Some (f, r).
Proof.
  intros [[Hlen | Hlen] Hall]; unfold fraction.
  - destruct f as [|f1 [|f2 [|f3 f]]]; try discriminate.
    inversion Hall as [|? ? H1 Hall']; subst.
    inversion Hall' as [|? ? H2 _]; subst.
    simpl. rewrite H1, H2. simpl. reflexivity.
  - rewrite <- Hlen at 1. rewrite digits_all by assumption.
    simpl. reflexivity.
Qed.

Lemma TIME_REGEXP_Some (l : jsstring) (m : RegExpMatch) :
  TIME_REGEXP l = Some m ->
  exists mm ss ff rest,
    l = timed mm ss ff rest /\ two_digits mm /\ two_digits ss
    /\ fraction_digits ff
    /\ m = {| group1 := mm; group2 := ss; group3 := ff;
              group4 := dotStar rest |}.
Proof.
  unfold TIME_REGEXP.
  destruct (expect (ch "[") l) as [s1|] eqn:X1; [|discriminate].
  destruct (digits 2 s1) as [[mm s2]|] eqn:D1; [|discriminate].
  destruct (expect (ch ":") s2) as [s3|] eqn:X2; [|discriminate].
  destruct (digits 2 s3) as [[ss s4]|] eqn:D2; [|discriminate].
  destruct (expect (ch ".") s4) as [s5|] eqn:X3; [|discriminate].
  destruct (fraction s5) as [[ff s6]|] eqn:F; [|discriminate].
  intros H. injection H as <-.
  apply expect_Some in X1, X2, X3. apply digits_Some in D1, D2.
  apply fraction_Some in F.
  destruct D1 as (-> & Hm & Hmm), D2 as (-> & Hs & Hss), F as (-> & Hff).
  subst. exists mm, ss, ff, s6. unfold timed, two_digits.
  repeat (rewrite <- app_assoc; simpl). auto 10.
Qed.

Lemma TIME_REGEXP_timed (mm ss ff rest : jsstring) :
  two_digits mm -> two_digits ss -> fraction_digits ff ->
  TIME_REGEXP (timed mm ss ff rest)
  = Some {| group1 := mm; group2 := ss; group3 := ff;
            group4 := dotStar rest |}.
Proof.
  intros [Lm Hm] [Ls Hs] Hf. unfold TIME_REGEXP, timed.
  simpl expect at 1. cbv iota beta.
  rewrite <- Lm at 1. rewrite digits_all by assumption.
  simpl expect at 1. cbv iota beta.
  rewrite <- Ls at 1. rewrite digits_all by assumption.
  simpl expect at 1. cbv iota beta.
  now rewrite fraction_digits_ok.
Qed.

Lemma parseInt10_value (ds : jsstring) :
  all_digits ds -> ds <> [] -> parseInt10 ds = Fin (value ds).
Proof.
  intros H Hne. destruct ds as [|c ds]; [congruence|].
  now rewrite parseInt10_digits.
Qed.

Lemma lineOfMatch_timed (now : N) (index : nat) (mm ss ff rest : jsstring) :
  two_digits mm -> two_digits ss -> fraction_digits ff ->
  lineOfMatch now index
    {| group1 := mm; group2 := ss; group3 := ff; group4 := rest |}
  = {| id := str "line-" ++ N_toString (N.of_nat index) ++ str "-"
             ++ N_toString now;
       timestamp := Fin (stamp mm ss ff);
       text := trim rest |}.
Proof.
  intros [Lm Hm] [Ls Hs] [Lf Hf]. unfold lineOfMatch. cbn [group1 group2 group3 group4].
  rewrite !parseInt10_value; try assumption;
    try (intros ->; simpl in *; try destruct Lf; discriminate).
  unfold stamp, scale. destruct (length ff =? 3); reflexivity.
Qed.

Lemma records_no_NaN (now : nat -> N) (index : nat) (lines : list jsstring) :
  no_NaN (records now index lines).
Proof.
  revert index. induction lines as [|l lines IH]; intros index; simpl.
  - constructor.
  - destruct (TIME_REGEXP l) as [m|] eqn:E; [|apply IH].
    constructor; [|apply IH].
    apply TIME_REGEXP_Some in E.
    destruct E as (mm & ss & ff & rest & _ & Hm & Hs & Hf & ->).
    now rewrite lineOfMatch_timed.
Qed.

Lemma records_length (now : nat -> N) (index : nat) (lines : list jsstring) :
  length (records now index lines) <= length lines.
Proof.
  revert index. induction lines as [|l lines IH]; intros index; simpl.
  - lia.
  - specialize (IH (S index)). destruct (TIME_REGEXP l); simpl; lia.
Qed.

Lemma records_none (now : nat -> N) (index : nat) (lines : list jsstring) :
  (forall l, In l lines -> TIME_REGEXP l = None) -> records now index lines = [].
Proof.
  revert index. induction lines as [|l lines IH]; intros index H; simpl.
  - reflexivity.
  - rewrite (H l) by now left. apply IH. intros l' Hl'. apply H. now right.
Qed.

(** C9. [parseLRC] returns a sequence for every input, with at most one
    line per line of the input; the empty input, and an input none of
    whose lines matches, give the empty sequence. *)
Theorem parseLRC_total (now : nat -> N) :
  parseLRC now [] = []
  /\ (forall content,
        (forall l, In l (split LF content) -> TIME_REGEXP l = None) ->
        parseLRC now content = [])
  /\ (forall content,
        exists result,
          parseLRC now content = result
          /\ length result <= length (split LF content)).
Proof.
  split; [reflexivity|]. split.
  - intros content H. rewrite parseLRC_records.
    now rewrite records_none.
  - intros content. eexists. split; [reflexivity|].
    rewrite parseLRC_records.
    rewrite (Permutation_length (sort_Permutation byTimestamp _)).
    apply records_length.
Qed.

Lemma parseLRC_total_witness :
  parseLRC (fun _ => 0%N) malformed_document = [].
Proof.
  apply (parseLRC_total (fun _ => 0%N)).
  intros l Hl. vm_compute in Hl.
  destruct Hl as [<- | [<- | [<- | [<- | []]]]]; reflexivity.
Defined.

(** A carriage return inside the line ends the text: the line
    [[00:01.00]a<CR>b] gets the text [a], not [a<CR>b]. *)
Lemma text_stops_at_line_terminator :
  map text
    (parseLRC (fun _ => 0%N)
       (timed (str "00") (str "01") (str "00") carriage_return_inside))
  = [str "a"]
  /\ map text
       (parseLRC (fun _ => 0%N)
          (timed (str "00") (str "01") (str "00") carriage_return_inside))
     <> [remaining_text_trimmed carriage_return_inside].
Proof. split; [reflexivity|]. vm_compute. discriminate. Qed.

(** C6, as amended. [parseLRC] splits the document on newlines. A line
    gives a record exactly when it starts with a bracketed timestamp of two
    digits of minutes, two of seconds and two or three of fraction; the
    record has the timestamp minutes * 60 + seconds + fraction / scale,
    with scale 100 for two digits and 1000 for three, and for text what
    follows the bracket up to the first line terminator, trimmed. Other
    lines are skipped, and the result holds the records sorted by
    timestamp. The example document gives Start at 0, Hello at 1.5 and
    World at 3. *)
Theorem parseLRC_correct :
  (forall l,
     TIME_REGEXP l <> None <->
     exists mm ss ff rest,
       l = timed mm ss ff rest /\ two_digits mm /\ two_digits ss
       /\ fraction_digits ff)
  /\ (forall now index mm ss ff rest lines,
        two_digits mm -> two_digits ss -> fraction_digits ff ->
        records now index (timed mm ss ff rest :: lines)
        = {| id := str "line-" ++ N_toString (N.of_nat index) ++ str "-"
                   ++ N_toString (now index);
             timestamp := Fin (stamp mm ss ff);
             text := trim (dotStar rest) |}
          :: records now (S index) lines)
  /\ (forall now index l lines,
        TIME_REGEXP l = None ->
        records now index (l :: lines) = records now (S index) lines)
  /\ (forall now content,
        Permutation (parseLRC now content)
          (records now 0 (split LF content))
        /\ non_decreasing (parseLRC now content))
  /\ (forall now,
        map text (parseLRC now example_document)
        = [str "Start"; str "Hello"; str "World"]
        /\ Forall2 same_number (map timestamp (parseLRC now example_document))
             [Fin 0.0; Fin 1.5; Fin 3.0]).
Proof.
  split; [|split; [|split; [|split]]].
  - intros l. split.
    + destruct (TIME_REGEXP l) as [m|] eqn:E; [|congruence]. intros _.
      apply TIME_REGEXP_Some in E.
      destruct E as (mm & ss & ff & rest & H & Hm & Hs & Hf & _).
      now exists mm, ss, ff, rest.
    + intros (mm & ss & ff & rest & -> & Hm & Hs & Hf).
      rewrite TIME_REGEXP_timed by assumption. discriminate.
  - intros now index mm ss ff rest lines Hm Hs Hf. simpl.
    rewrite TIME_REGEXP_timed by assumption.
    now rewrite lineOfMatch_timed.
  - intros now index l lines H. simpl. now rewrite H.
  - intros now content. rewrite parseLRC_records. split.
    + apply sort_Permutation.
    + apply sort_byTimestamp_non_decreasing, records_no_NaN.
  - intros now. split; [reflexivity|].
    vm_compute. repeat constructor.
Qed.

Lemma parseLRC_correct_witness :
  records (fun _ => 7%N) 0
    [timed (str "01") (str "02") (str "345") (str " la "); str "[bad line]"]
  = [{| id := str "line-0-7";
        timestamp := Fin (stamp (str "01") (str "02") (str "345"));
        text := str "la" |}].
Proof.
  destruct parseLRC_correct as (_ & Hrec & Hskip & _).
  rewrite Hrec.
  - rewrite Hskip; reflexivity.
  - split; [reflexivity | vm_compute; repeat constructor].
  - split; [reflexivity | vm_compute; repeat constructor].
  - split; [now right | vm_compute; repeat constructor].
Defined.

(** ** The export, and the round trip *)

Lemma formatTime_Fin (q : Q) :
  formatTime (Fin q)
  = str "[" ++ format (Int (minutesField q)) ++ str ":"
    ++ format (Int (secondsField q)) ++ str "."
    ++ format (Int (hundredthsField q)) ++ str "]".
Proof. reflexivity. Qed.

Lemma Qfloor_bounds (x : Q) :
  (inject_Z (Qfloor x) <= x /\ x < inject_Z (Qfloor x) + 1)%Q.
Proof.
  split; [apply Qfloor_le|].
  assert (H := Qlt_floor x). now rewrite inject_Z_plus in H.
Qed.

Lemma Qfloor_unique (z : Z) (x : Q) :
  (inject_Z z <= x)%Q -> (x < inject_Z z + 1)%Q -> Qfloor x = z.
Proof.
  intros H1 H2. destruct (Qfloor_bounds x) as [H3 H4].
  assert (A : (Qfloor x < z + 1)%Z).
  { rewrite Zlt_Qlt, inject_Z_plus. change (inject_Z 1) with 1%Q. lra. }
  assert (B : (z < Qfloor x + 1)%Z).
  { rewrite Zlt_Qlt, inject_Z_plus. change (inject_Z 1) with 1%Q. lra. }
  lia.
Qed.

Lemma Qfloor_nonneg (x : Q) : (0 <= x)%Q -> (0 <= Qfloor x)%Z.
Proof.
  intros H. change 0%Z with (Qfloor 0). now apply Qfloor_resp_le.
Qed.

Lemma Qfloor_below (x : Q) (k : Z) : (x < inject_Z k)%Q -> (Qfloor x < k)%Z.
Proof.
  intros H. rewrite Zlt_Qlt. destruct (Qfloor_bounds x) as [H1 _]. lra.
Qed.

Lemma Qtrunc_nonneg (x : Q) : (0 <= x)%Q -> Qtrunc x = Qfloor x.
Proof.
  intros H. unfold Qtrunc. now rewrite (Qle_bool_intro _ _ H).
Qed.

Section Fields.
Variable q : Q.
Hypothesis q_nonneg : (0 <= q)%Q.

Lemma div60_nonneg : (0 <= q / 60)%Q.
Proof. unfold Qdiv. change (/ 60)%Q with (1 # 60)%Q. lra. Qed.

Lemma div1_nonneg : (0 <= q / 1)%Q.
Proof. unfold Qdiv. change (/ 1)%Q with 1%Q. lra. Qed.

Lemma minutes_bounds :
  (60 * inject_Z (minutesField q) <= q
   /\ q < 60 * inject_Z (minutesField q) + 60)%Q.
Proof.
  unfold minutesField. destruct (Qfloor_bounds (q / 60)) as [H1 H2].
  revert H1 H2. unfold Qdiv. change (/ 60)%Q with (1 # 60)%Q.
  intros H1 H2. split; lra.
Qed.

Lemma secondsField_eq :
  secondsField q = (Qfloor q - 60 * minutesField q)%Z.
Proof.
  unfold secondsField. rewrite (Qtrunc_nonneg _ div60_nonneg).
  fold (minutesField q). destruct (Qfloor_bounds q) as [H1 H2].
  apply Qfloor_unique; unfold Zminus;
    rewrite inject_Z_plus, inject_Z_opp, inject_Z_mult;
    change (inject_Z 60) with 60%Q; lra.
Qed.

Lemma hundredthsField_eq :
  hundredthsField q = (Qfloor (100 * q) - 100 * Qfloor q)%Z.
Proof.
  unfold hundredthsField. rewrite (Qtrunc_nonneg _ div1_nonneg).
  assert (E : Qfloor (q / 1) = Qfloor q).
  { apply Qfloor_comp. unfold Qdiv. change (/ 1)%Q with 1%Q. lra. }
  rewrite E. destruct (Qfloor_bounds (100 * q)) as [H1 H2].
  apply Qfloor_unique; unfold Zminus;
    rewrite inject_Z_plus, inject_Z_opp, inject_Z_mult;
    change (inject_Z 100) with 100%Q; lra.
Qed.

Lemma minutesField_range :
  (q < 6000)%Q -> (0 <= minutesField q < 100)%Z.
Proof.
  intros Hq. split.
  - apply Qfloor_nonneg, div60_nonneg.
  - apply Qfloor_below. unfold Qdiv. change (/ 60)%Q with (1 # 60)%Q.
    change (inject_Z 100) with 100%Q. lra.
Qed.

Lemma secondsField_range : (0 <= secondsField q < 60)%Z.
Proof.
  rewrite secondsField_eq. destruct minutes_bounds as [H1 H2].
  destruct (Qfloor_bounds q) as [H3 H4].
  assert (A : (60 * minutesField q <= Qfloor q)%Z).
  { apply Z.lt_succ_r. unfold Z.succ.
    rewrite Zlt_Qlt, inject_Z_plus, inject_Z_mult.
    change (inject_Z 60) with 60%Q. change (inject_Z 1) with 1%Q. lra. }
  assert (B : (Qfloor q < 60 * minutesField q + 60)%Z).
  { rewrite Zlt_Qlt, inject_Z_plus, inject_Z_mult.
    change (inject_Z 60) with 60%Q. lra. }
  lia.
Qed.

Lemma hundredthsField_range : (0 <= hundredthsField q < 100)%Z.
Proof.
  rewrite hundredthsField_eq.
  destruct (Qfloor_bounds q) as [H1 H2].
  destruct (Qfloor_bounds (100 * q)) as [H3 H4].
  assert (A : (100 * Qfloor q <= Qfloor (100 * q))%Z).
  { apply Z.lt_succ_r. unfold Z.succ.
    rewrite Zlt_Qlt, inject_Z_plus, inject_Z_mult.
    change (inject_Z 100) with 100%Q. change (inject_Z 1) with 1%Q. lra. }
  assert (B : (Qfloor (100 * q) < 100 * Qfloor q + 100)%Z).
  { rewrite Zlt_Qlt, inject_Z_plus, inject_Z_mult.
    change (inject_Z 100) with 100%Q. lra. }
  lia.
Qed.

Lemma fields_sum :
  (inject_Z (minutesField q) * 60 + inject_Z (secondsField q)
   + inject_Z (hundredthsField q) / 100 == hundredths q)%Q.
Proof.
  rewrite secondsField_eq, hundredthsField_eq. unfold hundredths, Zminus.
  rewrite !inject_Z_plus, !inject_Z_opp, !inject_Z_mult.
  change (inject_Z 60) with 60%Q. change (inject_Z 100) with 100%Q.
  unfold Qdiv. change (/ 100)%Q with (1 # 100)%Q. lra.
Qed.

End Fields.

Lemma hundredths_monotone (p q : Q) :
  (p <= q)%Q -> (hundredths p <= hundredths q)%Q.
Proof.
  intros H. unfold hundredths.
  assert (A : (Qfloor (100 * p) <= Qfloor (100 * q))%Z).
  { apply Qfloor_resp_le. lra. }
  rewrite Zle_Qle in A. unfold Qdiv. change (/ 100)%Q with (1 # 100)%Q. lra.
Qed.

Lemma two_ok_below_100 : forallb two_ok (map Z.of_nat (seq 0 100)) = true.
Proof. vm_compute. reflexivity. Qed.

Lemma format_two_digits (z : Z) :
  (0 <= z < 100)%Z ->
  two_digits (format (Int z)) /\ value (format (Int z)) = inject_Z z.
Proof.
  intros Hz. assert (H : two_ok z = true).
  { assert (A := two_ok_below_100). rewrite forallb_forall in A. apply A.
    replace z with (Z.of_nat (Z.to_nat z)) by lia.
    apply in_map, in_seq. lia. }
  unfold two_ok in H.
  destruct (format (Int z)) as [|a [|b [|c r]]]; try discriminate.
  apply andb_true_iff in H. destruct H as [H Hv].
  apply andb_true_iff in H. destruct H as [Ha Hb].
  apply Z.eqb_eq in Hv. split.
  - split; [reflexivity|]. now repeat constructor.
  - unfold value. now rewrite Hv.
Qed.

Lemma exportLRC_lines (s : list LyricLine) :
  exportLRC s = join [LF] (map exportLine s).
Proof. reflexivity. Qed.

Lemma formatTime_timed (q : Q) :
  (0 <= q)%Q -> (q < 6000)%Q ->
  exists mm ss ff,
    formatTime (Fin q) = timed mm ss ff []
    /\ two_digits mm /\ two_digits ss /\ two_digits ff
    /\ (stamp mm ss ff == hundredths q)%Q.
Proof.
  intros H0 H1.
  destruct (format_two_digits _ (minutesField_range q H0 H1)) as [Hm Vm].
  assert (Rs : (0 <= secondsField q < 100)%Z).
  { assert (A := secondsField_range q H0). lia. }
  destruct (format_two_digits _ Rs) as [Hs Vs].
  destruct (format_two_digits _ (hundredthsField_range q H0)) as [Hf Vf].
  exists (format (Int (minutesField q))), (format (Int (secondsField q))),
    (format (Int (hundredthsField q))).
  split; [|split; [|split; [|split]]]; try assumption.
  - rewrite formatTime_Fin. reflexivity.
  - unfold stamp, scale. destruct Hf as [-> _]. simpl Nat.eqb. cbv iota.
    rewrite Vm, Vs, Vf. apply fields_sum. assumption.
Qed.

Lemma records_timed (now : nat -> N) (index : nat) (mm ss ff rest : jsstring)
    (lines : list jsstring) :
  two_digits mm -> two_digits ss -> fraction_digits ff ->
  records now index (timed mm ss ff rest :: lines)
  = {| id := str "line-" ++ N_toString (N.of_nat index) ++ str "-"
             ++ N_toString (now index);
       timestamp := Fin (stamp mm ss ff);
       text := trim (dotStar rest) |}
    :: records now (S index) lines.
Proof.
  intros Hm Hs Hf. simpl. rewrite TIME_REGEXP_timed by assumption.
  now rewrite lineOfMatch_timed.
Qed.

Lemma two_is_fraction (ff : jsstring) : two_digits ff -> fraction_digits ff.
Proof. intros [H1 H2]. split; auto. Qed.

Lemma exportLine_timed (a : LyricLine) :
  exportable a ->
  exists q mm ss ff,
    timestamp a = Fin q /\ (0 <= q)%Q
    /\ exportLine a = timed mm ss ff (ch " " :: text a)
    /\ two_digits mm /\ two_digits ss /\ two_digits ff
    /\ (stamp mm ss ff == hundredths q)%Q.
Proof.
  intros [(q & Hq & H0 & H1) _].
  destruct (formatTime_timed q H0 H1) as (mm & ss & ff & E & Hm & Hs & Hf & V).
  exists q, mm, ss, ff.
  split; [assumption|]. split; [assumption|].
  split; [|auto].
  unfold exportLine. rewrite Hq, E. unfold timed. simpl.
  repeat (rewrite <- app_assoc; simpl). reflexivity.
Qed.

Lemma digits_no_LF (ds : jsstring) :
  all_digits ds -> Forall (fun c => (c =? LF)%N = false) ds.
Proof.
  apply Forall_impl. intros c Hc. apply isDigit_range in Hc.
  unfold LF. decide_chars. reflexivity.
Qed.

Lemma text_no_LF (t : jsstring) :
  Forall (fun c => isLineTerminator c = false) t ->
  Forall (fun c => (c =? LF)%N = false) t.
Proof.
  apply Forall_impl. intros c Hc. unfold isLineTerminator, char_in in Hc.
  simpl in Hc. now apply orb_false_elim in Hc.
Qed.

Lemma exportLine_no_LF (a : LyricLine) :
  exportable a -> Forall (fun c => (c =? LF)%N = false) (exportLine a).
Proof.
  intros Ha.
  destruct (exportLine_timed a Ha)
    as (q & mm & ss & ff & _ & _ & -> & [_ Hm] & [_ Hs] & [_ Hf] & _).
  destruct Ha as (_ & Ht & _). unfold timed.
  repeat first
    [ apply Forall_cons; [reflexivity|]
    | apply Forall_app; split; [now apply digits_no_LF|] ].
  now apply text_no_LF.
Qed.

Lemma exported_text (t : jsstring) :
  Forall (fun c => isLineTerminator c = false) t -> trim t = t ->
  trim (dotStar (ch " " :: t)) = t.
Proof.
  intros Ht Htrim. rewrite dotStar_no_terminator.
  - now rewrite trimStart_app_space.
  - now constructor.
Qed.

Lemma records_export (now : nat -> N) (index : nat) (s : list LyricLine) :
  Forall exportable s ->
  Forall2 truncated s (records now index (map exportLine s)).
Proof.
  intros H. revert index. induction H as [|a s Ha _ IH]; intros index.
  - constructor.
  - destruct (exportLine_timed a Ha)
      as (q & mm & ss & ff & Hq & H0 & E & Hm & Hs & Hf & V).
    simpl map. rewrite E.
    rewrite records_timed; try assumption; [|now apply two_is_fraction].
    constructor; [|apply IH].
    destruct Ha as (_ & Ht & Htrim). split; simpl.
    + now apply exported_text.
    + now exists q, (stamp mm ss ff).
Qed.


Lemma truncated_order (a a' b b' : LyricLine) :
  truncated a b -> truncated a' b' -> le_timestamp a a' -> le_timestamp b b'.
Proof.
  intros (_ & q & p & Ha & Hb & _ & E) (_ & q' & p' & Ha' & Hb' & _ & E').
  unfold le_timestamp. rewrite Ha, Ha', Hb, Hb'. simpl. intros H.
  apply Qle_bool_true in H. apply Qle_bool_intro.
  rewrite E, E'. now apply hundredths_monotone.
Qed.

Lemma truncated_non_decreasing (s r : list LyricLine) :
  Forall2 truncated s r -> non_decreasing s -> non_decreasing r.
Proof.
  induction 1 as [|a b s r Hab Hsr IH]; intros Hs; [constructor|].
  inversion Hs as [|? ? Hs' Hd]; subst. constructor; [now apply IH|].
  destruct Hsr as [|a' b' s' r' Hab' _]; constructor.
  inversion Hd; subst. now apply truncated_order with a a'.
Qed.


(** White space at the ends of a text does not survive. *)
Example outer_space_lost :
  map text (parseLRC (fun _ => 0%N) (exportLRC [line "a" 1 " x "]))
  = [str "x"].
Proof. reflexivity. Qed.

(** A text of two lines comes back as two lines, the second one lost. *)
Example second_line_lost :
  map text
    (parseLRC (fun _ => 0%N)
       (exportLRC [{| id := str "a"; timestamp := Fin 1;
                      text := str "x" ++ [LF] ++ str "y" |}]))
  = [str "x"].
Proof. reflexivity. Qed.



(** * Further properties *)

(** ** Strings, again *)

Lemma jsstring_eqb_eq (s t : jsstring) : jsstring_eqb s t = true <-> s = t.
Proof.
  revert t. induction s as [|c s IH]; intros [|d t]; simpl;
    try (split; [discriminate | congruence]); [tauto|].
  rewrite andb_true_iff, N.eqb_eq, IH. split.
  - intros [-> ->]. reflexivity.
  - intros H. injection H as -> ->. auto.
Qed.

Lemma jsstring_eqb_refl (s : jsstring) : jsstring_eqb s s = true.
Proof. now apply jsstring_eqb_eq. Qed.

Lemma jsstring_eqb_neq (s t : jsstring) : jsstring_eqb s t = false <-> s <> t.
Proof.
  rewrite <- jsstring_eqb_eq. destruct (jsstring_eqb s t); split; congruence.
Qed.

Lemma trimStart_idempotent (s : jsstring) : trimStart (trimStart s) = trimStart s.
Proof.
  induction s as [|c s IH]; simpl; [reflexivity|].
  destruct (isStrWhiteSpace c) eqn:E; [assumption|]. simpl. now rewrite E.
Qed.

Lemma trimStart_fixed (c : char) (s : jsstring) :
  isStrWhiteSpace c = false -> trimStart (c :: s) = c :: s.
Proof. intros H. simpl. now rewrite H. Qed.

Lemma trimStart_app_last (s : jsstring) (c : char) :
  isStrWhiteSpace c = false ->
  exists w, trimStart (s ++ [c]) = w ++ [c].
Proof.
  intros Hc. induction s as [|d s IH]; simpl.
  - rewrite Hc. now exists [].
  - destruct (isStrWhiteSpace d); [assumption|]. now exists (d :: s).
Qed.

Lemma trimEnd_keeps_head (c : char) (s : jsstring) :
  isStrWhiteSpace c = false -> exists w, trimEnd (c :: s) = c :: w.
Proof.
  intros Hc. unfold trimEnd. simpl rev.
  destruct (trimStart_app_last (rev s) c Hc) as [w ->].
  rewrite rev_app_distr. simpl. now exists (rev w).
Qed.

Lemma trimEnd_idempotent (s : jsstring) : trimEnd (trimEnd s) = trimEnd s.
Proof.
  unfold trimEnd. now rewrite rev_involutive, trimStart_idempotent.
Qed.

Lemma trim_idempotent (s : jsstring) : trim (trim s) = trim s.
Proof.
  unfold trim. destruct (trimStart s) as [|c u] eqn:E.
  - reflexivity.
  - assert (Hc : isStrWhiteSpace c = false).
    { clear -E. induction s as [|d s IH]; simpl in E; [discriminate|].
      destruct (isStrWhiteSpace d) eqn:Ed; [now apply IH|].
      injection E as -> _. assumption. }
    destruct (trimEnd_keeps_head c u Hc) as [w Hw].
    rewrite Hw at 1. rewrite trimStart_fixed by assumption.
    rewrite <- Hw. apply trimEnd_idempotent.
Qed.

Lemma trimStart_Forall (P : char -> Prop) (s : jsstring) :
  Forall P s -> Forall P (trimStart s).
Proof.
  induction 1 as [|c s Hc Hs IH]; simpl; [constructor|].
  destruct (isStrWhiteSpace c); [assumption|]. now constructor.
Qed.

Lemma trim_Forall (P : char -> Prop) (s : jsstring) :
  Forall P s -> Forall P (trim s).
Proof.
  intros H. unfold trim, trimEnd.
  apply Forall_rev, trimStart_Forall, Forall_rev. now apply trimStart_Forall.
Qed.

Lemma dotStar_Forall (s : jsstring) :
  Forall (fun c => isLineTerminator c = false) (dotStar s).
Proof.
  induction s as [|c s IH]; simpl; [constructor|].
  destruct (isLineTerminator c) eqn:E; [constructor|]. now constructor.
Qed.

(** ** Decimal numerals *)

Lemma uint_chars_digits (u : Decimal.uint) : all_digits (uint_chars u).
Proof. induction u; simpl; constructor; auto. Qed.

Lemma N_toString_digits (n : N) : all_digits (N_toString n).
Proof. apply uint_chars_digits. Qed.

Lemma digitsValue_acc (u : Decimal.uint) (acc : positive) :
  fold_left (fun a d => (10 * a + digitValue d)%N) (uint_chars u) (N.pos acc)
  = N.pos (Pos.of_uint_acc u acc).
Proof.
  revert acc. induction u as [|u IH|u IH|u IH|u IH|u IH|u IH|u IH|u IH|u IH|u IH];
    intros acc; cbn [uint_chars fold_left Pos.of_uint_acc]; [reflexivity|..];
    rewrite <- IH; f_equal; unfold digitValue; lia.
Qed.

Lemma digitsValue_uint (u : Decimal.uint) :
  digitsValue (uint_chars u) = N.of_uint u.
Proof.
  unfold digitsValue, N.of_uint.
  induction u as [|u IH|u IH|u IH|u IH|u IH|u IH|u IH|u IH|u IH|u IH];
    cbn [uint_chars fold_left Pos.of_uint]; [reflexivity | exact IH | ..];
    apply (digitsValue_acc u).
Qed.

Lemma digitsValue_N_toString (n : N) : digitsValue (N_toString n) = n.
Proof.
  unfold N_toString. rewrite digitsValue_uint. apply DecimalN.Unsigned.of_to.
Qed.

Lemma N_toString_inj (m n : N) : N_toString m = N_toString n -> m = n.
Proof.
  intros H. rewrite <- (digitsValue_N_toString m), H.
  apply digitsValue_N_toString.
Qed.


Lemma spanDigits_app (ds r : jsstring) :
  all_digits ds ->
  match r with [] => True | c :: _ => isDigit c = false end ->
  spanDigits (ds ++ r) = (ds, r).
Proof.
  intros Hds Hr. induction Hds as [|c ds Hc _ IH]; simpl.
  - destruct r as [|c r]; [reflexivity|]. simpl. now rewrite Hr.
  - now rewrite Hc, IH.
Qed.

Lemma digitsValue_app (ds : jsstring) (c : char) :
  digitsValue (ds ++ [c]) = (10 * digitsValue ds + digitValue c)%N.
Proof. unfold digitsValue. now rewrite fold_left_app. Qed.

Lemma digitValue_le9 (c : char) : isDigit c = true -> (digitValue c <= 9)%N.
Proof. intros H. apply isDigit_range in H. unfold digitValue. lia. Qed.

Lemma two_digits_le99 (ds : jsstring) :
  two_digits ds -> (digitsValue ds <= 99)%N.
Proof.
  intros [Hl Hd]. destruct ds as [|a [|b [|c r]]]; try discriminate.
  inversion Hd as [|? ? Ha Hd']; subst. inversion Hd' as [|? ? Hb _]; subst.
  apply digitValue_le9 in Ha, Hb. unfold digitsValue; cbn [fold_left]. lia.
Qed.

Lemma three_digits_le999 (ds : jsstring) :
  length ds = 3 -> all_digits ds -> (digitsValue ds <= 999)%N.
Proof.
  intros Hl Hd. destruct ds as [|a [|b [|c [|d r]]]]; try discriminate.
  inversion Hd as [|? ? Ha Hd']; subst. inversion Hd' as [|? ? Hb Hd'']; subst.
  inversion Hd'' as [|? ? Hc _]; subst.
  apply digitValue_le9 in Ha, Hb, Hc. unfold digitsValue; cbn [fold_left]. lia.
Qed.

(** ** The parser: ids and lines *)

Lemma lineId_inj (i j : nat) (a b : N) : lineId i a = lineId j b -> i = j.
Proof.
  unfold lineId. intros H. apply app_inv_head in H.
  assert (E : spanDigits (N_toString (N.of_nat i) ++ str "-" ++ N_toString a)
              = spanDigits (N_toString (N.of_nat j) ++ str "-" ++ N_toString b))
    by now rewrite H.
  rewrite !spanDigits_app in E;
    try apply N_toString_digits; try reflexivity.
  injection E as E _. apply N_toString_inj in E. lia.
Qed.

Lemma records_ids (now : nat -> N) (index : nat) (lines : list jsstring)
    (r : LyricLine) :
  In r (records now index lines) ->
  exists j, index <= j /\ id r = lineId j (now j).
Proof.
  revert index. induction lines as [|l lines IH]; intros index; simpl;
    [intros []|].
  destruct (TIME_REGEXP l) as [m|].
  - intros [<- | H].
    + exists index. split; [lia | reflexivity].
    + destruct (IH _ H) as (j & Hj & E). exists j. split; [lia | assumption].
  - intros H. destruct (IH _ H) as (j & Hj & E). exists j. split;
      [lia | assumption].
Qed.

Lemma records_NoDup (now : nat -> N) (index : nat) (lines : list jsstring) :
  NoDup (map id (records now index lines)).
Proof.
  revert index. induction lines as [|l lines IH]; intros index; simpl.
  - constructor.
  - destruct (TIME_REGEXP l) as [m|]; [|apply IH].
    simpl. constructor; [|apply IH].
    intros H. apply in_map_iff in H. destruct H as (r & E & Hr).
    apply records_ids in Hr. destruct Hr as (j & Hj & Ej).
    rewrite Ej in E. change (lineId j (now j) = lineId index (now index)) in E.
    apply lineId_inj in E. lia.
Qed.

(** X1. The ids [parseLRC] gives to the lines of a document are pairwise
    distinct, whatever the clock returns: each holds the index of its line
    in the document. *)
Theorem parseLRC_ids_distinct (now : nat -> N) (content : jsstring) :
  NoDup (map id (parseLRC now content)).
Proof.
  rewrite parseLRC_records.
  apply Permutation_NoDup with (map id (records now 0 (split LF content))).
  - apply Permutation_map. symmetry. apply sort_Permutation.
  - apply records_NoDup.
Qed.

Lemma value_two_digits (ds : jsstring) :
  two_digits ds -> (0 <= value ds /\ value ds <= 99)%Q.
Proof.
  intros H. apply two_digits_le99 in H. unfold value.
  split.
  - change 0%Q with (inject_Z 0). rewrite <- Zle_Qle. lia.
  - change 99%Q with (inject_Z 99). rewrite <- Zle_Qle. lia.
Qed.

Lemma value_fraction (ff : jsstring) :
  fraction_digits ff -> (0 <= value ff / scale ff /\ value ff / scale ff < 1)%Q.
Proof.
  intros [[Hl | Hl] Hd]; unfold scale; rewrite Hl; simpl Nat.eqb; cbv iota.
  - assert (A : (digitsValue ff <= 99)%N) by now apply two_digits_le99.
    assert (B : (0 <= value ff /\ value ff <= 99)%Q).
    { unfold value. split.
      - change 0%Q with (inject_Z 0). rewrite <- Zle_Qle. lia.
      - change 99%Q with (inject_Z 99). rewrite <- Zle_Qle. lia. }
    unfold Qdiv. change (/ 100)%Q with (1 # 100)%Q. split; lra.
  - assert (A : (digitsValue ff <= 999)%N) by now apply three_digits_le999.
    assert (B : (0 <= value ff /\ value ff <= 999)%Q).
    { unfold value. split.
      - change 0%Q with (inject_Z 0). rewrite <- Zle_Qle. lia.
      - change 999%Q with (inject_Z 999). rewrite <- Zle_Qle. lia. }
    unfold Qdiv. change (/ 1000)%Q with (1 # 1000)%Q. split; lra.
Qed.

Lemma stamp_range (mm ss ff : jsstring) :
  two_digits mm -> two_digits ss -> fraction_digits ff ->
  (0 <= stamp mm ss ff /\ stamp mm ss ff < 6040)%Q.
Proof.
  intros Hm Hs Hf. apply value_two_digits in Hm, Hs. apply value_fraction in Hf.
  unfold stamp. split; lra.
Qed.

Lemma records_well_parsed (now : nat -> N) (index : nat) (lines : list jsstring) :
  Forall well_parsed (records now index lines).
Proof.
  revert index. induction lines as [|l lines IH]; intros index; simpl.
  - constructor.
  - destruct (TIME_REGEXP l) as [m|] eqn:E; [|apply IH].
    constructor; [|apply IH].
    apply TIME_REGEXP_Some in E.
    destruct E as (mm & ss & ff & rest & _ & Hm & Hs & Hf & ->).
    rewrite lineOfMatch_timed by assumption. split; [|split]; simpl.
    + exists (stamp mm ss ff). split; [reflexivity|]. now apply stamp_range.
    + apply trim_Forall, dotStar_Forall.
    + apply trim_idempotent.
Qed.

Lemma parsed_lines (now : nat -> N) (content : jsstring) :
  Forall well_parsed (parseLRC now content).
Proof.
  rewrite parseLRC_records.
  apply Permutation_Forall with (records now 0 (split LF content)).
  - symmetry. apply sort_Permutation.
  - apply records_well_parsed.
Qed.

(** X2. Every line [parseLRC] returns has a finite timestamp from 0 up to,
    not including, 6040 seconds (99 minutes, 99 seconds and a fraction: the
    seconds field is not limited to 59), and a text without line
    terminator and without white space at either end. *)
Theorem parseLRC_well_parsed (now : nat -> N) (content : jsstring) :
  Forall well_parsed (parseLRC now content).
Proof.
  rewrite parseLRC_records.
  assert (P := sort_Permutation byTimestamp (records now 0 (split LF content))).
  apply Permutation_Forall with (records now 0 (split LF content)).
  - now symmetry.
  - apply records_well_parsed.
Qed.

(** ** Export and import, again *)

Lemma parse_export_records (now : nat -> N) (s : list LyricLine) :
  Forall exportable s -> non_decreasing s ->
  parseLRC now (exportLRC s) = records now 0 (map exportLine s).
Proof.
  intros He Hs. rewrite parseLRC_records, exportLRC_lines.
  destruct s as [|a s]; [reflexivity|].
  rewrite split_join.
  - apply sort_byTimestamp_id.
    apply truncated_non_decreasing with (a :: s); [|assumption].
    now apply records_export.
  - discriminate.
  - apply Forall_forall. intros l Hl. apply in_map_iff in Hl.
    destruct Hl as (x & <- & Hx). apply exportLine_no_LF.
    revert x Hx. now apply Forall_forall.
Qed.

Lemma well_parsed_exportable (l : LyricLine) :
  well_parsed l ->
  (forall q, timestamp l = Fin q -> (q < 6000)%Q) ->
  exportable l.
Proof.
  intros ((q & E & H0 & _) & Ht & Htrim) Hq. split; [|split]; try assumption.
  exists q. split; [assumption|]. split; [assumption|]. now apply Hq.
Qed.

Lemma truncated_texts (s r : list LyricLine) :
  Forall2 truncated s r -> map text r = map text s.
Proof.
  induction 1 as [|a b s r [Hab _] _ IH]; simpl; [reflexivity|].
  now rewrite Hab, IH.
Qed.

(** X3. A document that was imported, exported and imported again has the
    same number of lines with the same texts in the same order, provided
    the first import gave no time of 6000 seconds or more. *)
Theorem reimport_keeps_texts (now now' : nat -> N) (content : jsstring) :
  Forall (fun l => forall q, timestamp l = Fin q -> (q < 6000)%Q)
    (parseLRC now content) ->
  map text (parseLRC now' (exportLRC (parseLRC now content)))
  = map text (parseLRC now content).
Proof.
  intros Hq. set (s := parseLRC now content) in *.
  assert (He : Forall exportable s).
  { assert (Hw := parsed_lines now content). fold s in Hw.
    rewrite Forall_forall in Hw, Hq.
    apply Forall_forall. intros l Hl. apply well_parsed_exportable.
    - now apply Hw.
    - now apply Hq. }
  assert (Hs : non_decreasing s).
  { unfold s. rewrite parseLRC_records.
    apply sort_byTimestamp_non_decreasing, records_no_NaN. }
  rewrite (parse_export_records now' s He Hs).
  apply truncated_texts. now apply records_export.
Qed.

Lemma reimport_keeps_texts_witness :
  map text
    (parseLRC (fun _ => 1%N)
       (exportLRC (parseLRC (fun _ => 0%N) example_document)))
  = [str "Start"; str "Hello"; str "World"].
Proof.
  apply (reimport_keeps_texts (fun _ => 0%N) (fun _ => 1%N) example_document).
  vm_compute. repeat constructor; intros q E; injection E as <-; reflexivity.
Defined.

Lemma format_negative (z : Z) :
  (z < 0)%Z -> exists r, format (Int z) = ch "0" :: ch "-" :: r.
Proof.
  intros H. destruct z as [|p|p]; try lia.
  unfold format, integral_lt.
  replace (Z.neg p <? 10)%Z with true by (symmetry; apply Z.ltb_lt; lia).
  simpl. eauto.
Qed.

Lemma format_hundred (z : Z) :
  (100 <= z)%Z ->
  exists d1 d2 d3 r, format (Int z) = d1 :: d2 :: d3 :: r /\ isDigit d3 = true.
Proof.
  intros H. unfold format, integral_lt.
  replace (z <? 10)%Z with false by (symmetry; apply Z.ltb_ge; lia).
  destruct z as [|p|p]; try lia. simpl.
  assert (D := N_toString_digits (N.pos p)).
  assert (V := digitsValue_N_toString (N.pos p)).
  destruct (N_toString (N.pos p)) as [|d1 [|d2 [|d3 r]]].
  - vm_compute in V. discriminate.
  - inversion D as [|? ? H1 _]; subst. apply digitValue_le9 in H1.
    unfold digitsValue in V. cbn [fold_left] in V. lia.
  - assert (T : two_digits [d1; d2]) by (split; [reflexivity | assumption]).
    apply two_digits_le99 in T. lia.
  - exists d1, d2, d3, r. split; [reflexivity|].
    inversion D as [|? ? _ D1]; subst. inversion D1 as [|? ? _ D2]; subst.
    now inversion D2.
Qed.

Lemma TIME_REGEXP_minus (c : char) (r : jsstring) :
  TIME_REGEXP (ch "[" :: c :: ch "-" :: r) = None.
Proof.
  unfold TIME_REGEXP. simpl expect. cbv iota beta. simpl.
  destruct (isDigit c); reflexivity.
Qed.

Lemma TIME_REGEXP_three (d1 d2 d3 : char) (r : jsstring) :
  isDigit d3 = true -> TIME_REGEXP (ch "[" :: d1 :: d2 :: d3 :: r) = None.
Proof.
  intros H3. unfold TIME_REGEXP. simpl.
  destruct (isDigit d1); [|reflexivity]. destruct (isDigit d2); [|reflexivity].
  apply isDigit_range in H3. unfold ch. simpl.
  destruct (N.eqb_spec d3 58); [lia | reflexivity].
Qed.

Lemma minutesField_negative (q : Q) : (q < 0)%Q -> (minutesField q < 0)%Z.
Proof.
  intros H. unfold minutesField. apply Qfloor_below.
  unfold Qdiv. change (/ 60)%Q with (1 # 60)%Q. change (inject_Z 0) with 0%Q.
  lra.
Qed.

Lemma minutesField_hundred (q : Q) : (6000 <= q)%Q -> (100 <= minutesField q)%Z.
Proof.
  intros H. unfold minutesField. change 100%Z with (Qfloor (inject_Z 100)).
  apply Qfloor_resp_le. unfold Qdiv. change (/ 60)%Q with (1 # 60)%Q.
  change (inject_Z 100) with 100%Q. lra.
Qed.

Lemma timed_app (mm ss ff r t : jsstring) :
  timed mm ss ff r ++ t = timed mm ss ff (r ++ t).
Proof.
  unfold timed. simpl. repeat (rewrite <- app_assoc; simpl). reflexivity.
Qed.

(** X4. On import, a line of the export is recognised exactly when its
    timestamp is a finite number from 0 up to, not including, 6000 seconds,
    whatever its text: lines timed 100 minutes or more, negative times,
    [NaN] and the infinities are exported in a form the parser skips. *)
Theorem exported_line_recognised (seconds : number) (rest : jsstring) :
  TIME_REGEXP (formatTime seconds ++ rest) <> None
  <-> exists q, seconds = Fin q /\ (0 <= q)%Q /\ (q < 6000)%Q.
Proof.
  split.
  - intros H. destruct seconds as [| [] | q]; try (exfalso; apply H; reflexivity).
    exists q. split; [reflexivity|].
    destruct (Qlt_le_dec q 0) as [Hneg | Hpos].
    + exfalso. apply H. rewrite formatTime_Fin.
      destruct (format_negative _ (minutesField_negative q Hneg)) as [r ->].
      apply TIME_REGEXP_minus.
    + split; [assumption|]. destruct (Qlt_le_dec q 6000) as [Hlt | Hge];
        [assumption|].
      exfalso. apply H. rewrite formatTime_Fin.
      destruct (format_hundred _ (minutesField_hundred q Hge))
        as (d1 & d2 & d3 & r & -> & H3).
      now apply TIME_REGEXP_three.
  - intros (q & -> & H0 & H1).
    destruct (formatTime_timed q H0 H1) as (mm & ss & ff & -> & Hm & Hs & Hf & _).
    rewrite timed_app. rewrite TIME_REGEXP_timed; try assumption; [discriminate|].
    now apply two_is_fraction.
Qed.

Lemma exported_line_recognised_witness :
  TIME_REGEXP (formatTime (Fin 75.5) ++ str " la") <> None
  /\ TIME_REGEXP (formatTime (Fin (-30)) ++ str " la") = None.
Proof.
  split.
  - apply exported_line_recognised. exists 75.5%Q.
    split; [reflexivity|]. split; [discriminate | reflexivity].
  - destruct (TIME_REGEXP (formatTime (Fin (-30)) ++ str " la")) eqn:E;
      [|reflexivity].
    assert (H : TIME_REGEXP (formatTime (Fin (-30)) ++ str " la") <> None)
      by (rewrite E; discriminate).
    apply exported_line_recognised in H. destruct H as (q & Hq & H0 & _).
    injection Hq as <-. exfalso. revert H0. vm_compute. auto.
Defined.

(** ** The editor: text, delete, keys *)

Lemma map_retext_absent (id_ newText : jsstring) (l : list LyricLine) :
  ~ In id_ (map id l) ->
  map (fun a => if jsstring_eqb (id a) id_ then with_text a newText else a) l
  = l.
Proof.
  induction l as [|a l IH]; simpl; intros H; [reflexivity|].
  destruct (jsstring_eqb (id a) id_) eqn:E.
  - apply jsstring_eqb_eq in E. tauto.
  - rewrite IH; [reflexivity | tauto].
Qed.

Lemma retext_le (id_ newText : jsstring) (a b : LyricLine) :
  le_timestamp a b ->
  le_timestamp
    (if jsstring_eqb (id a) id_ then with_text a newText else a)
    (if jsstring_eqb (id b) id_ then with_text b newText else b).
Proof.
  unfold le_timestamp.
  destruct (jsstring_eqb (id a) id_), (jsstring_eqb (id b) id_); auto.
Qed.

Lemma Sorted_map_le (f : LyricLine -> LyricLine) (l : list LyricLine) :
  (forall a b, le_timestamp a b -> le_timestamp (f a) (f b)) ->
  non_decreasing l -> non_decreasing (map f l).
Proof.
  intros Hf. induction 1 as [|a l Hs IH Hd]; simpl; constructor; try assumption.
  destruct Hd; simpl; constructor. now apply Hf.
Qed.

(** X5. Editing a text changes nothing but texts: ids, timestamps, order
    and length stay; the lines with the given id, and only they, get the
    new text; an id that no line has leaves the sequence as it is; a
    non-decreasing sequence stays non-decreasing. *)
Theorem handleTextChange_frame (lyrics_ : list LyricLine)
    (id_ newText : jsstring) :
  exists l',
    LyricEditor.handleTextChange lyrics_ id_ newText = Some l'
    /\ map id l' = map id lyrics_
    /\ map timestamp l' = map timestamp lyrics_
    /\ Forall2 (fun a b => (id a = id_ -> b = with_text a newText)
                           /\ (id a <> id_ -> b = a)) lyrics_ l'
    /\ (~ In id_ (map id lyrics_) -> l' = lyrics_)
    /\ (non_decreasing lyrics_ -> non_decreasing l').
Proof.
  eexists. split; [reflexivity|].
  split; [|split; [|split; [|split]]].
  - rewrite map_map. apply map_ext. intros a.
    now destruct (jsstring_eqb (id a) id_).
  - rewrite map_map. apply map_ext. intros a.
    now destruct (jsstring_eqb (id a) id_).
  - induction lyrics_ as [|a l IH]; simpl; constructor; [|exact IH].
    destruct (jsstring_eqb (id a) id_) eqn:E.
    + apply jsstring_eqb_eq in E. split; [reflexivity | congruence].
    + apply jsstring_eqb_neq in E. split; [congruence | reflexivity].
  - apply map_retext_absent.
  - apply Sorted_map_le. intros a b. apply retext_le.
Qed.

Lemma handleTextChange_frame_witness :
  LyricEditor.handleTextChange three_lines (str "zz") (str "new")
  = Some three_lines.
Proof.
  destruct (handleTextChange_frame three_lines (str "zz") (str "new"))
    as (l' & -> & _ & _ & _ & Habsent & _).
  f_equal. apply Habsent. simpl.
  intros [H | [H | [H | []]]]; discriminate.
Defined.

Lemma filter_absent (id_ : jsstring) (l : list LyricLine) :
  ~ In id_ (map id l) ->
  filter (fun a => negb (jsstring_eqb (id a) id_)) l = l.
Proof.
  induction l as [|a l IH]; simpl; intros H; [reflexivity|].
  destruct (jsstring_eqb (id a) id_) eqn:E; simpl.
  - apply jsstring_eqb_eq in E. tauto.
  - rewrite IH; [reflexivity | tauto].
Qed.

Lemma filter_one (id_ : jsstring) (l : list LyricLine) :
  NoDup (map id l) -> In id_ (map id l) ->
  S (length (filter (fun a => negb (jsstring_eqb (id a) id_)) l)) = length l.
Proof.
  induction l as [|a l IH]; simpl; intros Hnd Hin; [destruct Hin|].
  inversion Hnd as [|? ? Hnot Hnd']; subst.
  destruct (jsstring_eqb (id a) id_) eqn:E; simpl.
  - apply jsstring_eqb_eq in E. subst id_.
    now rewrite filter_absent.
  - apply jsstring_eqb_neq in E. f_equal. apply IH; [assumption|].
    destruct Hin; [congruence | assumption].
Qed.

(** X6. After a delete no line has the given id and every other line is
    still there; nothing is added; an id that no line has leaves the
    sequence as it is; deleting again changes nothing more; and when the
    ids are pairwise distinct and the id is present exactly one line
    goes. *)
Theorem handleDelete_removes (lyrics_ : list LyricLine) (id_ : jsstring) :
  exists l',
    LyricEditor.handleDelete lyrics_ id_ = Some l'
    /\ ~ In id_ (map id l')
    /\ (forall a, In a l' <-> In a lyrics_ /\ id a <> id_)
    /\ (~ In id_ (map id lyrics_) -> l' = lyrics_)
    /\ LyricEditor.handleDelete l' id_ = Some l'
    /\ (NoDup (map id lyrics_) -> In id_ (map id lyrics_) ->
        S (length l') = length lyrics_).
Proof.
  eexists. split; [reflexivity|].
  assert (Hin : forall a,
    In a (filter (fun a => negb (jsstring_eqb (id a) id_)) lyrics_)
    <-> In a lyrics_ /\ id a <> id_).
  { intros a. rewrite filter_In, negb_true_iff, jsstring_eqb_neq. tauto. }
  assert (Hnot :
    ~ In id_ (map id (filter (fun a => negb (jsstring_eqb (id a) id_)) lyrics_))).
  { intros H. apply in_map_iff in H. destruct H as (a & E & Ha).
    apply Hin in Ha. tauto. }
  split; [exact Hnot|]. split; [exact Hin|].
  split; [apply filter_absent|]. split.
  - unfold LyricEditor.handleDelete. f_equal. now apply filter_absent.
  - apply filter_one.
Qed.

Lemma handleDelete_removes_witness :
  exists l',
    LyricEditor.handleDelete three_lines (str "b") = Some l'
    /\ S (length l') = 3
    /\ LyricEditor.handleDelete three_lines (str "zz") = Some three_lines.
Proof.
  destruct (handleDelete_removes three_lines (str "b"))
    as (l' & E & _ & _ & _ & _ & Hone).
  destruct (handleDelete_removes three_lines (str "zz"))
    as (l'' & E' & _ & _ & Habsent & _).
  exists l'. split; [exact E|]. split.
  - apply Hone.
    + simpl. repeat constructor; simpl;
        intros H; repeat (destruct H as [H | H]; try discriminate); auto.
    + simpl. auto.
  - rewrite E'. f_equal. apply Habsent. simpl.
    intros [H | [H | [H | []]]]; discriminate.
Defined.

Lemma splice_insert_split {A : Type} (pre post : list A) (a x : A) :
  splice_insert (length pre + 1) x (pre ++ a :: post) = pre ++ a :: x :: post.
Proof.
  unfold splice_insert.
  replace (length pre + 1) with (length (pre ++ [a]))
    by (rewrite length_app; reflexivity).
  replace (pre ++ a :: post) with ((pre ++ [a]) ++ post)
    by (rewrite <- app_assoc; reflexivity).
  rewrite firstn_app, skipn_app, firstn_all, skipn_all, Nat.sub_diag.
  simpl. rewrite app_nil_r, <- app_assoc. reflexivity.
Qed.

Lemma nth_error_after {A : Type} (pre post : list A) (a : A) :
  nth_error (pre ++ a :: post) (length pre + 1) = nth_error post 0.
Proof.
  rewrite nth_error_app2 by lia.
  replace (length pre + 1 - length pre) with 1 by lia. reflexivity.
Qed.

Lemma enter_result (lyrics_ : list LyricLine) (now : N) (index : nat)
    (cur : LyricLine) :
  nth_error lyrics_ index = Some cur ->
  exists pre post,
    lyrics_ = pre ++ cur :: post /\ length pre = index
    /\ LyricEditor.handleKeyDown lyrics_ now LyricEditor.Enter index
       = Normal (Some (pre ++ cur
                         :: {| id := str "line-" ++ N_toString now;
                               timestamp := nadd (timestamp cur) (ofN 2);
                               text := [] |} :: post)).
Proof.
  intros H. destruct (nth_error_split _ _ H) as (pre & post & E & Hl).
  exists pre, post. split; [assumption|]. split; [assumption|].
  unfold LyricEditor.handleKeyDown. rewrite H. subst lyrics_ index.
  now rewrite splice_insert_split.
Qed.

(** X7. Enter on a line of the sequence inserts, right after it, one line
    with an empty text and the timestamp of that line plus 2; all lines
    before and after keep their order. On an index outside the sequence
    Enter and Backspace throw, and any other key does nothing. *)
Theorem enter_inserts_after (lyrics_ : list LyricLine) (now : N) (index : nat) :
  (forall cur,
     nth_error lyrics_ index = Some cur ->
     exists pre post new,
       lyrics_ = pre ++ cur :: post /\ length pre = index
       /\ LyricEditor.handleKeyDown lyrics_ now LyricEditor.Enter index
          = Normal (Some (pre ++ cur :: new :: post))
       /\ text new = []
       /\ timestamp new = nadd (timestamp cur) (ofN 2)
       /\ id new = str "line-" ++ N_toString now)
  /\ (length lyrics_ <= index ->
      LyricEditor.handleKeyDown lyrics_ now LyricEditor.Enter index = Throw
      /\ LyricEditor.handleKeyDown lyrics_ now LyricEditor.Backspace index
         = Throw)
  /\ LyricEditor.handleKeyDown lyrics_ now LyricEditor.OtherKey index
     = Normal None.
Proof.
  split; [|split; [|reflexivity]].
  - intros cur H. destruct (enter_result lyrics_ now index cur H)
      as (pre & post & E & Hl & R).
    exists pre, post. eexists. repeat split; eassumption || reflexivity.
  - intros H. apply nth_error_None in H.
    unfold LyricEditor.handleKeyDown. now rewrite H.
Qed.

Lemma enter_inserts_after_witness :
  LyricEditor.handleKeyDown three_lines 99 LyricEditor.Enter 1
  = Normal (Some [line "a" 0.0 "first"; line "b" 1.5 "second";
                  {| id := str "line-99"; timestamp := Fin (1.5 + 2);
                     text := [] |};
                  line "c" 3.0 "third"])
  /\ LyricEditor.handleKeyDown three_lines 99 LyricEditor.Enter 3 = Throw.
Proof.
  destruct (enter_inserts_after three_lines 99 1) as (Hin & _ & _).
  destruct (enter_inserts_after three_lines 99 3) as (_ & Hout & _).
  split.
  - destruct (Hin (line "b" 1.5 "second") eq_refl)
      as (pre & post & new & E & Hl & R & _).
    reflexivity.
  - apply Hout. simpl. lia.
Defined.



(** ** Insertions and order *)

Lemma Sorted_insert_middle (pre post : list LyricLine) (cur new : LyricLine) :
  non_decreasing (pre ++ cur :: post) ->
  (non_decreasing (pre ++ cur :: new :: post)
   <-> le_timestamp cur new /\ HdRel le_timestamp new post).
Proof.
  intros Hs. induction pre as [|p pre IH]; simpl in *.
  - inversion Hs as [|? ? Hpost Hd]; subst. split.
    + intros H. inversion H as [|? ? H1 H2]; subst.
      inversion H1; subst. inversion H2; subst. auto.
    + intros [Hcn Hnp]. repeat constructor; assumption.
  - inversion Hs as [|? ? Hrest Hd]; subst. split.
    + intros H. inversion H; subst. now apply IH.
    + intros H. constructor; [now apply IH|].
      destruct pre; simpl in *; inversion Hd; subst; now constructor.
Qed.

Lemma le_plus (t : number) (k : N) :
  isNaN t = false -> nle t (nadd t (ofN k)) = true.
Proof.
  destruct t as [| [] | q]; simpl; try congruence; auto.
  intros _. apply Qle_bool_intro.
  assert (A : (0 <= inject_Z (Z.of_N k))%Q).
  { change 0%Q with (inject_Z 0). rewrite <- Zle_Qle. lia. }
  lra.
Qed.

Lemma HdRel_head (new : LyricLine) (post : list LyricLine) :
  HdRel le_timestamp new post
  <-> (forall next, nth_error post 0 = Some next -> le_timestamp new next).
Proof.
  destruct post as [|b post]; simpl; split.
  - intros _ next H. discriminate.
  - constructor.
  - intros H next E. injection E as <-. now inversion H.
  - intros H. constructor. now apply H.
Qed.

Lemma insert_after_order (lyrics_ : list LyricLine) (index : nat)
    (cur new : LyricLine) (k : N) :
  non_decreasing lyrics_ -> no_NaN lyrics_ ->
  nth_error lyrics_ index = Some cur ->
  timestamp new = nadd (timestamp cur) (ofN k) ->
  (non_decreasing (splice_insert (index + 1) new lyrics_)
   <-> forall next,
         nth_error lyrics_ (index + 1) = Some next ->
         nle (nadd (timestamp cur) (ofN k)) (timestamp next) = true).
Proof.
  intros Hs Hn Hcur Hnew.
  destruct (nth_error_split _ _ Hcur) as (pre & post & -> & <-).
  rewrite splice_insert_split, nth_error_after.
  rewrite (Sorted_insert_middle pre post cur new Hs), HdRel_head.
  unfold le_timestamp. rewrite Hnew.
  assert (Hc : nle (timestamp cur) (nadd (timestamp cur) (ofN k)) = true).
  { apply le_plus. unfold no_NaN in Hn. rewrite Forall_forall in Hn.
    apply Hn. apply in_or_app. right. now left. }
  tauto.
Qed.

(** X9. In a non-decreasing sequence without [NaN], the line inserted by
    Enter (2 seconds after its line) or by a suggestion (3 seconds after)
    leaves the sequence non-decreasing exactly when there is no next line
    or the next line is not earlier than the inserted one. *)
Theorem insertion_keeps_order_iff (s : AppState) (now : N) (index : nat)
    (cur : LyricLine) (suggestion : jsstring) :
  non_decreasing (lyrics s) -> no_NaN (lyrics s) ->
  nth_error (lyrics s) index = Some cur ->
  (non_decreasing (lyrics (react s (KeyDown now LyricEditor.Enter index)))
   <-> forall next,
         nth_error (lyrics s) (index + 1) = Some next ->
         nle (nadd (timestamp cur) (ofN 2)) (timestamp next) = true)
  /\ (suggestion <> [] ->
      (non_decreasing
         (lyrics (react s (SuggestionArrived now index suggestion)))
       <-> forall next,
             nth_error (lyrics s) (index + 1) = Some next ->
             nle (nadd (timestamp cur) (ofN 3)) (timestamp next) = true)).
Proof.
  intros Hs Hn Hcur. split.
  - unfold react, dispatch. simpl. rewrite Hcur. simpl.
    now apply insert_after_order.
  - intros Hne. unfold react, dispatch. simpl.
    unfold handleAiSuggestion_resume. rewrite Hcur.
    destruct suggestion as [|c r]; [congruence|]. simpl.
    now apply insert_after_order.
Qed.

Lemma insertion_keeps_order_iff_witness :
  non_decreasing
    (lyrics (react (editing three_lines) (KeyDown 99 LyricEditor.Enter 2)))
  /\ ~ non_decreasing
         (lyrics (react (editing three_lines)
                    (SuggestionArrived 99 0 (str "la")))).
Proof.
  assert (Hs : non_decreasing three_lines) by (repeat constructor).
  assert (Hn : no_NaN three_lines) by (repeat constructor).
  split.
  - apply (insertion_keeps_order_iff (editing three_lines) 99 2
             (line "c" 3.0 "third") (str "la") Hs Hn eq_refl).
    intros next H. discriminate.
  - intros H.
    destruct (insertion_keeps_order_iff (editing three_lines) 99 0
                (line "a" 0.0 "first") (str "la") Hs Hn eq_refl) as [_ Hsug].
    assert (Hne : str "la" <> []) by discriminate.
    assert (K := proj1 (Hsug Hne) H (line "b" 1.5 "second") eq_refl).
    discriminate.
Defined.

(** ** Add Line and the time edit *)

Lemma nle_false_nlt (a b : number) :
  isNaN a = false -> isNaN b = false -> nle a b = false -> nlt b a = true.
Proof.
  destruct a as [| [] | p], b as [| [] | q]; simpl; try congruence; auto.
  intros _ _ H. now rewrite H.
Qed.

Lemma insert_front (x : LyricLine) (l : list LyricLine) :
  HdRel le_timestamp x l -> insert byTimestamp x l = x :: l.
Proof.
  intros H. destruct H as [|b l H]; simpl; [reflexivity|].
  unfold byTimestamp. unfold le_timestamp in H.
  destruct (nle_not_NaN _ _ H) as [Hx Hb].
  rewrite isPositive_nsub by assumption. now rewrite H.
Qed.

Lemma sort_snoc (l : list LyricLine) (x : LyricLine) :
  sort byTimestamp (l ++ [x]) = fold_right (insert byTimestamp) [x] l.
Proof. unfold sort. now rewrite fold_right_app. Qed.

Lemma insert_last_sorted (l : list LyricLine) (x : LyricLine) :
  StronglySorted le_timestamp l -> no_NaN l -> isNaN (timestamp x) = false ->
  exists pre post,
    l = pre ++ post
    /\ fold_right (insert byTimestamp) [x] l = pre ++ x :: post
    /\ Forall (fun a => nle (timestamp a) (timestamp x) = true) pre
    /\ Forall (fun a => nlt (timestamp x) (timestamp a) = true) post.
Proof.
  intros Hs Hn Hx. induction Hs as [|y l Hs IH Hall].
  - exists [], []. repeat split; constructor.
  - inversion Hn as [|? ? Hy Hn']; subst.
    destruct (IH Hn') as (pre & post & E & F & Hpre & Hpost).
    simpl. rewrite F. destruct pre as [|a pre].
    + simpl in *. subst post.
      destruct (nle (timestamp y) (timestamp x)) eqn:C.
      * exists [y], l. repeat split; try assumption.
        -- unfold byTimestamp. rewrite isPositive_nsub by assumption.
           now rewrite C.
        -- now repeat constructor.
      * exists [], (y :: l). repeat split; try constructor; try assumption.
        -- unfold byTimestamp at 1. rewrite isPositive_nsub by assumption.
           rewrite C. simpl. f_equal. apply insert_front.
           destruct l as [|b l]; constructor.
           now inversion Hall.
        -- now apply nle_false_nlt.
    + exists (y :: a :: pre), post. subst l.
      assert (Hya : le_timestamp y a) by now inversion Hall.
      repeat split; try assumption.
      * simpl. unfold byTimestamp at 1.
        destruct (nle_not_NaN _ _ Hya) as [Hy' Ha].
        rewrite isPositive_nsub by assumption. now rewrite Hya.
      * constructor; [|assumption].
        inversion Hpre; subst. now apply nle_trans with (timestamp a).
Qed.

(** X10. On a non-decreasing sequence without [NaN], Add Line puts the new
    line, timed at the current time and with an empty text, after every
    line that is not later and before every line that is later; no other
    line moves. *)
Theorem addLine_in_place (s : AppState) (now : N) :
  non_decreasing (lyrics s) -> no_NaN (lyrics s) ->
  isNaN (currentTime s) = false ->
  exists pre post,
    lyrics s = pre ++ post
    /\ lyrics (react s (AddLine now))
       = pre ++ {| id := str "line-" ++ N_toString now;
                   timestamp := currentTime s; text := [] |} :: post
    /\ Forall (fun a => nle (timestamp a) (currentTime s) = true) pre
    /\ Forall (fun a => nlt (currentTime s) (timestamp a) = true) post.
Proof.
  intros Hs Hn Hc. unfold react, dispatch. simpl. rewrite sort_snoc.
  apply insert_last_sorted; try assumption.
  apply Sorted_StronglySorted; [exact le_timestamp_trans | assumption].
Qed.

Lemma addLine_in_place_witness :
  lyrics (react {| lyrics := three_lines; currentTime := Fin 1.5;
                   activeLineId := None; mode := EDIT; syncIndex := 0;
                   isAiLoading := false; notification := None |}
            (AddLine 99))
  = [line "a" 0.0 "first"; line "b" 1.5 "second";
     {| id := str "line-99"; timestamp := Fin 1.5; text := [] |};
     line "c" 3.0 "third"].
Proof.
  destruct (addLine_in_place
              {| lyrics := three_lines; currentTime := Fin 1.5;
                 activeLineId := None; mode := EDIT; syncIndex := 0;
                 isAiLoading := false; notification := None |} 99)
    as (pre & post & _ & E & _ & _).
  - repeat constructor.
  - repeat constructor.
  - reflexivity.
  - reflexivity.
Defined.

(** X11. A time edit that is accepted keeps every line: the result has the
    same ids and texts, as a rearrangement of the sequence; the lines with
    the given id all get the one new time, and every other line is a line
    of the sequence, unchanged. *)
Theorem handleTimeChange_keeps_lines (lyrics_ l' : list LyricLine)
    (id_ newTimeStr : jsstring) :
  LyricEditor.handleTimeChange lyrics_ id_ newTimeStr = Some l' ->
  Permutation (map (fun a => (id a, text a)) l')
    (map (fun a => (id a, text a)) lyrics_)
  /\ length l' = length lyrics_
  /\ exists total,
       (forall a, In a l' -> id a = id_ -> timestamp a = total)
       /\ (forall a, In a l' -> id a <> id_ -> In a lyrics_).
Proof.
  unfold LyricEditor.handleTimeChange.
  destruct (split (ch ":") newTimeStr) as [|p0 [|p1 [|p2 r]]]; try discriminate.
  destruct (negb (isNaN (parseFloat p0)) && negb (isNaN (parseFloat p1)));
    [|discriminate].
  set (total := nadd (nmul (parseFloat p0) (ofN 60)) (parseFloat p1)).
  set (f := fun l => if jsstring_eqb (id l) id_ then with_timestamp l total else l).
  intros H. injection H as <-.
  assert (P := sort_Permutation byTimestamp (map f lyrics_)).
  split; [|split].
  - rewrite (Permutation_map (fun a => (id a, text a)) P), map_map.
    erewrite map_ext; [reflexivity|]. intros a. unfold f.
    now destruct (jsstring_eqb (id a) id_).
  - rewrite (Permutation_length P). apply length_map.
  - exists total. split.
    + intros a Ha E. apply (Permutation_in _ P) in Ha.
      apply in_map_iff in Ha. destruct Ha as (b & <- & Hb). unfold f in *.
      destruct (jsstring_eqb (id b) id_) eqn:Eb; [reflexivity|].
      apply jsstring_eqb_neq in Eb. contradiction.
    + intros a Ha E. apply (Permutation_in _ P) in Ha.
      apply in_map_iff in Ha. destruct Ha as (b & <- & Hb). unfold f in *.
      destruct (jsstring_eqb (id b) id_) eqn:Eb; [|assumption].
      apply jsstring_eqb_eq in Eb. simpl in E. contradiction.
Qed.

Lemma handleTimeChange_keeps_lines_witness :
  Permutation
    (map (fun a => (id a, text a))
       [line "a" 0.0 "first"; line "c" 3.0 "third"; line "b" 210 "second"])
    (map (fun a => (id a, text a)) three_lines).
Proof.
  assert (E : LyricEditor.handleTimeChange three_lines (str "b") (str "3:30")
              = Some [line "a" 0.0 "first"; line "c" 3.0 "third";
                      line "b" 210 "second"]) by reflexivity.
  destruct (handleTimeChange_keeps_lines _ _ _ _ E) as [P _]. exact P.
Defined.

(** ** The active line, again *)

Lemma nadd_mono (t t' : number) (k : Q) :
  nle t t' = true -> nle (nadd t (Fin k)) (nadd t' (Fin k)) = true.
Proof.
  destruct t as [| [] | p], t' as [| [] | q]; simpl; try congruence; auto.
  intros H. apply Qle_bool_true in H. apply Qle_bool_intro. lra.
Qed.

Lemma reached_mono (t t' : number) (x : LyricLine) :
  nle t t' = true -> reached t x = true -> reached t' x = true.
Proof.
  unfold reached, tolerance. intros H Hx.
  apply nle_trans with (nadd t (Fin 0.2)); [assumption|].
  now apply nadd_mono.
Qed.

Lemma findActive_split (l : list LyricLine) (time : number) (a : LyricLine) :
  findActive l time = Some a ->
  exists pre post,
    l = pre ++ a :: post /\ reached time a = true
    /\ Forall (fun y => reached time y = false) post.
Proof.
  intros H. assert (H' := H). apply find_some in H'. destruct H' as [Hin Hr].
  destruct (find_rev_last (reached time) l) as (pre & x & post & E & Hx & Hp & F).
  - exists a. split; [now apply in_rev | assumption].
  - change (find (reached time) (rev l) = Some a) in H.
    assert (x = a) by congruence. subst x. now exists pre, post.
Qed.

(** X12. The active line never moves backwards in the sequence as the time
    advances: a line that has been reached at some time, such as the line
    active then, is at or before the line that is active at any later
    time. *)
Theorem active_line_advances (pre post : list LyricLine) (a : LyricLine)
    (t t' : number) :
  nle t t' = true -> reached t a = true ->
  exists pre' b post',
    pre ++ a :: post = pre' ++ b :: post'
    /\ findActive (pre ++ a :: post) t' = Some b
    /\ length pre <= length pre'.
Proof.
  intros Ht Ha. assert (Ha' := reached_mono t t' a Ht Ha).
  destruct (find_rev_last (reached t') (pre ++ a :: post))
    as (pre' & b & post' & E & Hb & Hp & F).
  { exists a. split; [|assumption]. apply in_or_app. right. now left. }
  exists pre', b, post'. split; [assumption|]. split; [exact F|].
  destruct (Nat.le_gt_cases (length pre) (length pre')) as [|Hgt];
    [assumption|].
  exfalso.
  assert (N1 : nth_error (pre ++ a :: post) (length pre) = Some a).
  { rewrite nth_error_app2 by lia. now rewrite Nat.sub_diag. }
  rewrite E in N1. rewrite nth_error_app2 in N1 by lia.
  destruct (length pre - length pre') as [|k] eqn:K; [lia|].
  simpl in N1. apply nth_error_In in N1.
  rewrite Forall_forall in Hp. rewrite (Hp a N1) in Ha'. discriminate.
Qed.

Lemma active_line_advances_witness :
  exists pre' b post',
    three_lines = pre' ++ b :: post'
    /\ findActive three_lines (Fin 3.3) = Some b
    /\ 1 <= length pre'.
Proof.
  apply (active_line_advances [line "a" 0.0 "first"] [line "c" 3.0 "third"]
           (line "b" 1.5 "second") (Fin 1.6) (Fin 3.3)); reflexivity.
Defined.

Lemma StronglySorted_before (pre post : list LyricLine) (a x : LyricLine) :
  StronglySorted le_timestamp (pre ++ a :: post) -> In x pre ->
  le_timestamp x a.
Proof.
  induction pre as [|p pre IH]; simpl; intros Hs Hx; [destruct Hx|].
  inversion Hs as [|? ? Hs' Hall]; subst. destruct Hx as [-> | Hx].
  - rewrite Forall_forall in Hall. apply Hall. apply in_or_app. right.
    now left.
  - now apply IH.
Qed.

(** X13. In a non-decreasing sequence the active line divides the
    sequence: it and every line before it have a timestamp of at most the
    time plus 0.2, and no line after it has; so no line that has been
    reached is later than the active line. *)
Theorem active_line_divides (l : list LyricLine) (time : number)
    (a : LyricLine) :
  non_decreasing l -> findActive l time = Some a ->
  exists pre post,
    l = pre ++ a :: post
    /\ Forall (fun x => reached time x = true) (pre ++ [a])
    /\ Forall (fun x => reached time x = false) post
    /\ (forall x, In x l -> reached time x = true -> le_timestamp x a).
Proof.
  intros Hs H. destruct (findActive_split l time a H)
    as (pre & post & -> & Ha & Hpost).
  apply Sorted_StronglySorted in Hs; [|exact le_timestamp_trans].
  assert (Hpre : forall x, In x pre -> le_timestamp x a).
  { intros x Hx. now apply StronglySorted_before with pre post. }
  exists pre, post. split; [reflexivity|]. split; [|split; [assumption|]].
  - apply Forall_app. split; [|now repeat constructor].
    apply Forall_forall. intros x Hx. unfold reached in *.
    apply nle_trans with (timestamp a); [now apply Hpre | assumption].
  - intros x Hx Hr. apply in_app_or in Hx. destruct Hx as [Hx | [<- | Hx]].
    + now apply Hpre.
    + unfold le_timestamp. unfold reached in Ha.
      destruct (nle_not_NaN _ _ Ha) as [Hn _].
      destruct (timestamp a) as [| [] | q]; simpl in *; try congruence.
      apply Qle_bool_intro. lra.
    + rewrite Forall_forall in Hpost. rewrite (Hpost x Hx) in Hr. discriminate.
Qed.

Lemma active_line_divides_witness :
  exists pre post,
    three_lines = pre ++ line "b" 1.5 "second" :: post
    /\ Forall (fun x => reached (Fin 1.6) x = true)
         (pre ++ [line "b" 1.5 "second"])
    /\ Forall (fun x => reached (Fin 1.6) x = false) post.
Proof.
  destruct (active_line_divides three_lines (Fin 1.6) (line "b" 1.5 "second"))
    as (pre & post & E & Hpre & Hpost & _).
  - repeat constructor.
  - reflexivity.
  - now exists pre, post.
Defined.

(** ** A tap-sync session *)

Lemma assign_app {A : Type} (done todo : list A) (a x : A) :
  assign (length done) x (done ++ a :: todo) = done ++ x :: todo.
Proof. induction done as [|d done IH]; simpl; [reflexivity | now rewrite IH]. Qed.

Lemma or0_not_NaN (x : number) : isNaN (or0 x) = false.
Proof.
  unfold or0. destruct x as [| s | q]; simpl; try reflexivity.
  now destruct (Qis0 q).
Qed.

Lemma playerTime_not_NaN (p : option (option number)) :
  isNaN (playerTime p) = false.
Proof.
  unfold playerTime. destruct p as [w|]; [|reflexivity]. apply or0_not_NaN.
Qed.

Lemma retime_nil (times : list number) : retime [] times = [].
Proof. now destruct times. Qed.

Lemma tap_at_end (st : AppState) (p : option (option number)) :
  mode st = TAP_SYNC -> syncIndex st = length (lyrics st) ->
  mode (react st (TapSync p)) = TAP_SYNC
  /\ lyrics (react st (TapSync p)) = lyrics st
  /\ syncIndex (react st (TapSync p)) = syncIndex st.
Proof.
  intros Hm Hc. unfold react, dispatch. simpl. unfold handleTapSync.
  rewrite Hm.
  replace (nth_error (lyrics st) (syncIndex st)) with (@None LyricLine)
    by (symmetry; apply nth_error_None; lia).
  simpl. auto.
Qed.

Lemma tap_on_line (st : AppState) (p : option (option number))
    (done todo : list LyricLine) (a : LyricLine) :
  mode st = TAP_SYNC -> lyrics st = done ++ a :: todo ->
  syncIndex st = length done ->
  mode (react st (TapSync p)) = TAP_SYNC
  /\ lyrics (react st (TapSync p))
     = done ++ with_timestamp a (playerTime p) :: todo
  /\ syncIndex (react st (TapSync p)) = length done + 1.
Proof.
  intros Hm Hl Hc. unfold react, dispatch. simpl. unfold handleTapSync.
  rewrite Hm, Hl, Hc.
  replace (nth_error (done ++ a :: todo) (length done)) with (Some a)
    by (rewrite nth_error_app2 by lia; now rewrite Nat.sub_diag).
  simpl. rewrite assign_app. auto.
Qed.

Lemma tapAll_from (taps : list (option (option number))) (st : AppState)
    (done todo : list LyricLine) :
  mode st = TAP_SYNC -> lyrics st = done ++ todo ->
  syncIndex st = length done ->
  lyrics (tapAll st taps) = done ++ retime todo (map playerTime taps)
  /\ syncIndex (tapAll st taps)
     = length done + Nat.min (length taps) (length todo)
  /\ mode (tapAll st taps) = TAP_SYNC.
Proof.
  revert st done todo. induction taps as [|p taps IH];
    intros st done todo Hm Hl Hc.
  - simpl. rewrite Hl, Hc, Nat.add_0_r. now destruct todo.
  - change (tapAll st (p :: taps)) with (tapAll (react st (TapSync p)) taps).
    destruct todo as [|a todo].
    + rewrite app_nil_r in Hl.
      destruct (tap_at_end st p Hm) as (M & L & C); [now rewrite Hl|].
      destruct (IH (react st (TapSync p)) done []) as (H1 & H2 & H3);
        try assumption.
      * now rewrite L, Hl, app_nil_r.
      * now rewrite C.
      * rewrite H1, H2, H3, retime_nil, !Nat.min_0_r. auto.
    + destruct (tap_on_line st p done todo a Hm Hl Hc) as (M & L & C).
      destruct (IH (react st (TapSync p))
                  (done ++ [with_timestamp a (playerTime p)]) todo)
        as (H1 & H2 & H3); try assumption.
      * now rewrite L, <- app_assoc.
      * now rewrite C, length_app.
      * rewrite H1, H2, H3, <- app_assoc, length_app. simpl.
        repeat split. lia.
Qed.

Lemma retime_ids (l : list LyricLine) (times : list number) :
  map id (retime l times) = map id l /\ map text (retime l times) = map text l.
Proof.
  revert times. induction l as [|a l IH]; intros [|t times]; simpl; auto.
  destruct (IH times) as [-> ->]. auto.
Qed.

Lemma retime_ascending (l : list LyricLine) (times : list number) :
  length times = length l -> ascending times -> non_decreasing (retime l times).
Proof.
  revert times. induction l as [|a l IH]; intros [|t times] Hl Hs;
    simpl in *; try discriminate; [constructor|].
  inversion Hs as [|? ? Hs' Hd]; subst. constructor.
  - apply IH; [lia | assumption].
  - destruct l as [|b l], times as [|t' times]; simpl in *; try discriminate;
      constructor.
    inversion Hd; subst. assumption.
Qed.

(** X14. In a tap-sync session started with the cursor at 0, the taps give
    their times, never [NaN], to the lines in order, one line per tap:
    ids and texts are not touched and the cursor stops at the number of
    lines, the taps beyond the last line changing nothing. When every line
    was tapped and the times read did not decrease, the sequence is
    non-decreasing. *)
Theorem tap_sync_session (s : AppState) (taps : list (option (option number))) :
  mode s = TAP_SYNC -> syncIndex s = 0 ->
  lyrics (tapAll s taps) = retime (lyrics s) (map playerTime taps)
  /\ map id (lyrics (tapAll s taps)) = map id (lyrics s)
  /\ map text (lyrics (tapAll s taps)) = map text (lyrics s)
  /\ syncIndex (tapAll s taps) = Nat.min (length taps) (length (lyrics s))
  /\ Forall (fun t => isNaN t = false) (map playerTime taps)
  /\ (length taps = length (lyrics s) ->
      ascending (map playerTime taps) ->
      non_decreasing (lyrics (tapAll s taps))).
Proof.
  intros Hm Hc.
  destruct (tapAll_from taps s [] (lyrics s) Hm eq_refl Hc) as (H1 & H2 & _).
  simpl in H1, H2. rewrite H1.
  destruct (retime_ids (lyrics s) (map playerTime taps)) as [Hi Ht].
  repeat split; try assumption.
  - apply Forall_forall. intros t Ht'. apply in_map_iff in Ht'.
    destruct Ht' as (p & <- & _). apply playerTime_not_NaN.
  - intros Hl Ha. apply retime_ascending; [|assumption].
    now rewrite length_map.
Qed.

Lemma tap_sync_session_witness :
  lyrics (tapAll (syncing 0)
            [Some (Some (Fin 1.25)); Some (Some NaN); Some (Some (Fin 9))])
  = [line "p0" 1.25 "one"; line "p1" 0 "two"].
Proof.
  destruct (tap_sync_session (syncing 0)
              [Some (Some (Fin 1.25)); Some (Some NaN); Some (Some (Fin 9))]
              eq_refl eq_refl) as (H & _).
  rewrite H. reflexivity.
Defined.

(** ** The suggestion request and the service *)

Lemma context_start (index : nat) :
  Z.to_nat (Z.max 0 (Z.of_nat index - 3)) = index - 3.
Proof. lia. Qed.

(** X15. The context sent with a suggestion request holds the text of the
    requested line and of up to three lines before it, in order: with the
    request on a line of index [index] it has [min (index + 1) 4] texts,
    the last one that of the requested line. *)
Theorem context_lines (s : AppState) (index : nat) (cur : LyricLine) :
  nth_error (lyrics s) index = Some cur ->
  let contextLines := snd (handleAiSuggestion_start s index) in
  length contextLines = Nat.min (index + 1) 4
  /\ (forall j, j < length contextLines ->
        nth_error contextLines j
        = option_map text
            (nth_error (lyrics s) (index + 1 - length contextLines + j)))
  /\ nth_error contextLines (length contextLines - 1) = Some (text cur).
Proof.
  intros Hcur. cbv zeta. unfold handleAiSuggestion_start. cbn [snd].
  rewrite context_start. unfold slice.
  assert (Hlt : index < length (lyrics s)).
  { apply nth_error_Some. congruence. }
  assert (L : length (map text (skipn (index - 3)
                                  (firstn (index + 1) (lyrics s))))
              = Nat.min (index + 1) 4).
  { rewrite length_map, length_skipn, length_firstn. lia. }
  assert (Hnth : forall j, j < Nat.min (index + 1) 4 ->
    nth_error (map text (skipn (index - 3) (firstn (index + 1) (lyrics s)))) j
    = option_map text (nth_error (lyrics s) (index + 1 - Nat.min (index + 1) 4 + j))).
  { intros j Hj. rewrite nth_error_map, nth_error_skipn, nth_error_firstn.
    replace (index - 3 + j <? index + 1) with true
      by (symmetry; apply Nat.ltb_lt; lia).
    do 2 f_equal. lia. }
  rewrite L. split; [reflexivity|]. split; [exact Hnth|].
  rewrite Hnth by lia.
  replace (index + 1 - Nat.min (index + 1) 4 + (Nat.min (index + 1) 4 - 1))
    with index by lia.
  now rewrite Hcur.
Qed.

Lemma context_lines_witness :
  snd (handleAiSuggestion_start (editing three_lines) 1)
  = [str "first"; str "second"]
  /\ length (snd (handleAiSuggestion_start (editing three_lines) 1)) = 2.
Proof.
  split; [reflexivity|].
  apply (context_lines (editing three_lines) 1 (line "b" 1.5 "second") eq_refl).
Defined.

Lemma trim_all_space (s : jsstring) :
  Forall (fun c => isStrWhiteSpace c = true) s -> trim s = [].
Proof.
  intros H. unfold trim.
  assert (E : trimStart s = []).
  { induction H as [|c s Hc _ IH]; simpl; [reflexivity|]. now rewrite Hc. }
  now rewrite E.
Qed.

(** X16. What [generateLyricSuggestion] returns never has white space at
    either end. It is the empty string, so that no line is inserted,
    exactly when there is a client and the service answers with no text or
    with a text of white space only. *)
Theorem suggestion_trimmed (ai : client) (contextLines : list jsstring) :
  trimmed (generateLyricSuggestion ai contextLines)
  /\ (generateLyricSuggestion ai contextLines = []
      <-> exists generateContent,
            ai = Some generateContent
            /\ (generateContent contextLines = Response None
                \/ exists t,
                     generateContent contextLines = Response (Some t)
                     /\ trim t = [])).
Proof.
  unfold generateLyricSuggestion. destruct ai as [g|].
  - destruct (g contextLines) as [|[t|]] eqn:E.
    + split; [reflexivity|]. split; [discriminate|].
      intros (g' & Hg & [H | (t & H & _)]); injection Hg as <-; congruence.
    + split; [apply trim_idempotent|]. split.
      * intros H. exists g. split; [reflexivity|]. right. now exists t.
      * intros (g' & Hg & [H | (t' & H & Ht)]); injection Hg as <-;
          congruence.
    + split; [reflexivity|]. split; [|reflexivity].
      intros _. exists g. split; [reflexivity|]. now left.
  - split; [reflexivity|]. split; [discriminate|].
    intros (g & Hg & _). discriminate.
Qed.

(** ** Pasting and loading *)

Lemma indexed_id_inj (prefix : jsstring) (i j : nat) (a b : N) :
  prefix ++ N_toString (N.of_nat i) ++ str "-" ++ N_toString a
  = prefix ++ N_toString (N.of_nat j) ++ str "-" ++ N_toString b ->
  i = j.
Proof.
  intros H. apply app_inv_head in H.
  assert (E : spanDigits (N_toString (N.of_nat i) ++ str "-" ++ N_toString a)
              = spanDigits (N_toString (N.of_nat j) ++ str "-" ++ N_toString b))
    by now rewrite H.
  rewrite !spanDigits_app in E;
    try apply N_toString_digits; try reflexivity.
  injection E as E _. apply N_toString_inj in E. lia.
Qed.

Lemma mapi_In {A B : Type} (f : A -> nat -> B) (i : nat) (l : list A) (r : B) :
  In r (mapi f i l) -> exists x j, i <= j /\ In x l /\ r = f x j.
Proof.
  revert i. induction l as [|x l IH]; intros i; simpl; [intros []|].
  intros [<- | H].
  - exists x, i. auto.
  - destruct (IH _ H) as (y & j & Hj & Hy & E). exists y, j.
    repeat split; [lia | now right | assumption].
Qed.

Lemma mapi_map {A B C : Type} (f : A -> nat -> B) (g : B -> C) (h : A -> C)
    (i : nat) (l : list A) :
  (forall x j, g (f x j) = h x) -> map g (mapi f i l) = map h l.
Proof.
  intros H. revert i. induction l as [|x l IH]; intros i; simpl;
    [reflexivity|]. now rewrite H, IH.
Qed.

Lemma same_time_non_decreasing (t : number) (l : list LyricLine) :
  isNaN t = false -> Forall (fun a => timestamp a = t) l -> non_decreasing l.
Proof.
  intros Ht. induction 1 as [|a l Ha Hl IH]; constructor; [assumption|].
  destruct Hl as [|b l Hb _]; constructor.
  unfold le_timestamp. rewrite Ha, Hb.
  destruct t as [| [] | q]; simpl in *; try congruence.
  apply Qle_bool_intro. lra.
Qed.

(** X17. The lines made from a pasted text all have the timestamp 0, so
    that the sequence is non-decreasing, a text that is not empty and has
    no white space at either end, and pairwise distinct ids; their texts
    are those of the lines of the pasted text that are not blank, trimmed,
    in order. *)
Theorem pasted_lines (now : nat -> N) (answer : option jsstring)
    (l : list LyricLine) :
  handlePasteLyrics now answer = [setLyrics l] ->
  Forall (fun a => timestamp a = Fin 0 /\ text a <> [] /\ trimmed (text a)) l
  /\ non_decreasing l
  /\ NoDup (map id l)
  /\ exists pasted_,
       answer = Some pasted_
       /\ map text l
          = map trim
              (filter (fun t => negb (jsstring_eqb (trim t) []))
                 (split LF pasted_)).
Proof.
  unfold handlePasteLyrics. destruct answer as [[|c r]|]; try discriminate.
  set (lines := filter _ _). intros H. injection H as <-.
  set (f := fun (line_ : jsstring) (i : nat) =>
              {| id := str "imported-" ++ N_toString (N.of_nat i) ++ str "-"
                       ++ N_toString (now i);
                 timestamp := Fin 0; text := trim line_ |}).
  assert (Hall : Forall (fun a => timestamp a = Fin 0 /\ text a <> []
                                  /\ trimmed (text a)) (mapi f 0 lines)).
  { apply Forall_forall. intros a Ha. apply mapi_In in Ha.
    destruct Ha as (x & j & _ & Hx & ->). simpl.
    split; [reflexivity|]. split; [|apply trim_idempotent].
    apply filter_In in Hx. destruct Hx as [_ Hx].
    now apply negb_true_iff, jsstring_eqb_neq in Hx. }
  split; [exact Hall|]. split; [|split].
  - apply same_time_non_decreasing with (Fin 0); [reflexivity|].
    revert Hall. apply Forall_impl. tauto.
  - generalize 0. clear Hall.
    induction lines as [|x lines IH]; intros i; simpl; [constructor|].
    constructor; [|apply IH].
    intros H. apply in_map_iff in H. destruct H as (a & E & Ha).
    apply mapi_In in Ha. destruct Ha as (y & j & Hj & _ & ->).
    apply (indexed_id_inj (str "imported-") j i (now j) (now i)) in E. lia.
  - exists (c :: r). split; [reflexivity|].
    apply mapi_map. reflexivity.
Qed.

Lemma pasted_lines_witness :
  map text
    [{| id := str "imported-0-5"; timestamp := Fin 0; text := str "one" |};
     {| id := str "imported-1-5"; timestamp := Fin 0; text := str "two" |}]
  = [str "one"; str "two"]
  /\ non_decreasing
       [{| id := str "imported-0-5"; timestamp := Fin 0; text := str "one" |};
        {| id := str "imported-1-5"; timestamp := Fin 0; text := str "two" |}].
Proof.
  destruct (pasted_lines (fun _ => 5%N) (Some pasted_text) _ eq_refl)
    as (_ & Hs & _ & _).
  split; [reflexivity | exact Hs].
Defined.

Lemma split_all_space (s : jsstring) :
  Forall (fun c => isStrWhiteSpace c = true) s ->
  Forall (Forall (fun c => isStrWhiteSpace c = true)) (split LF s).
Proof.
  induction 1 as [|c s Hc _ IH]; simpl; [repeat constructor|].
  destruct (c =? LF)%N; [now constructor|].
  destruct (split LF s) as [|p ps]; [repeat constructor; assumption|].
  inversion IH; subst. constructor; [now constructor | assumption].
Qed.

Lemma filter_none {A : Type} (f : A -> bool) (l : list A) :
  Forall (fun x => f x = false) l -> filter f l = [].
Proof.
  induction 1 as [|x l Hx _ IH]; simpl; [reflexivity|]. now rewrite Hx.
Qed.

(** X18. What a paste or a load does to the sequence when it brings no
    line. A dismissed prompt, an empty answer and an empty file leave the
    sequence as it is; a pasted text of white space only, and a file that
    is not empty but has no timed line, replace it by the empty
    sequence. *)
Theorem empty_imports (st : AppState) (now : nat -> N) :
  lyrics (react st (PasteLyrics now None)) = lyrics st
  /\ lyrics (react st (PasteLyrics now (Some []))) = lyrics st
  /\ lyrics (react st (LrcLoaded now [])) = lyrics st
  /\ (forall pasted_,
        pasted_ <> [] ->
        Forall (fun c => isStrWhiteSpace c = true) pasted_ ->
        lyrics (react st (PasteLyrics now (Some pasted_))) = [])
  /\ (forall result,
        result <> [] ->
        (forall l, In l (split LF result) -> TIME_REGEXP l = None) ->
        lyrics (react st (LrcLoaded now result)) = []).
Proof.
  split; [reflexivity|]. split; [reflexivity|]. split; [reflexivity|]. split.
  - intros t Hne Hws. unfold react, dispatch. simpl.
    destruct t as [|c r]; [congruence|]. cbv iota beta.
    rewrite filter_none; [reflexivity|].
    assert (A := split_all_space (c :: r) Hws).
    revert A. apply Forall_impl. intros p Hp.
    rewrite trim_all_space by assumption. reflexivity.
  - intros result Hne Hnone. unfold react, dispatch. simpl.
    destruct result as [|c r]; [congruence|]. simpl.
    rewrite parseLRC_records. now rewrite records_none.
Qed.

Lemma empty_imports_witness :
  lyrics (react (editing three_lines)
            (PasteLyrics (fun _ => 5%N) (Some (str "  " ++ [LF] ++ str " "))))
  = []
  /\ lyrics (react (editing three_lines) (LrcLoaded (fun _ => 5%N) plain_lyrics))
     = [].
Proof.
  destruct (empty_imports (editing three_lines) (fun _ => 5%N))
    as (_ & _ & _ & Hpaste & Hload).
  split.
  - apply Hpaste; [discriminate|]. repeat constructor.
  - apply Hload; [discriminate|].
    intros l Hl. vm_compute in Hl. destruct Hl as [<- | [<- | []]]; reflexivity.
Defined.

(** ** The displayed time *)












(** ** Carriage returns *)

Lemma dotStar_CR (r : jsstring) : dotStar (r ++ [CR]) = dotStar r.
Proof.
  induction r as [|c r IH]; simpl; [reflexivity|].
  destruct (isLineTerminator c); [reflexivity | now rewrite IH].
Qed.

Lemma timed_ends (mm ss ff rest l : jsstring) :
  timed mm ss ff rest = l ++ [CR] ->
  exists r, rest = r ++ [CR] /\ l = timed mm ss ff r.
Proof.
  intros H. destruct (exists_last (l := rest)) as (r & c & E).
  - intros ->. unfold timed in H.
    assert (A : ch "[" :: mm ++ ch ":" :: ss ++ ch "." :: ff ++ [ch "]"]
                = (ch "[" :: mm ++ ch ":" :: ss ++ ch "." :: ff) ++ [ch "]"]).
    { simpl. repeat (rewrite <- app_assoc; simpl). reflexivity. }
    rewrite A in H. apply app_inj_tail in H. destruct H as [_ H].
    discriminate.
  - subst rest. rewrite <- timed_app in H. apply app_inj_tail in H.
    destruct H as [H ->]. now exists r.
Qed.

Lemma TIME_REGEXP_CR (l : jsstring) :
  TIME_REGEXP (l ++ [CR]) = TIME_REGEXP l.
Proof.
  destruct (TIME_REGEXP l) as [m|] eqn:E.
  - apply TIME_REGEXP_Some in E.
    destruct E as (mm & ss & ff & rest & -> & Hm & Hs & Hf & ->).
    rewrite timed_app, TIME_REGEXP_timed by assumption.
    now rewrite dotStar_CR.
  - destruct (TIME_REGEXP (l ++ [CR])) as [m|] eqn:E'; [|reflexivity].
    apply TIME_REGEXP_Some in E'.
    destruct E' as (mm & ss & ff & rest & H & Hm & Hs & Hf & _).
    symmetry in H. apply timed_ends in H. destruct H as (r & _ & ->).
    rewrite TIME_REGEXP_timed in E by assumption. discriminate.
Qed.

Lemma records_CRLF (now : nat -> N) (index : nat) (lines : list jsstring) :
  lines <> [] ->
  Forall (Forall (fun c => (c =? LF)%N = false)) lines ->
  records now index (split LF (join [CR; LF] lines))
  = records now index (split LF (join [LF] lines)).
Proof.
  intros Hne H. revert index Hne.
  induction H as [|p ps Hp Hps IH]; intros index Hne; [now destruct Hne|].
  destruct ps as [|p' ps]; [reflexivity|].
  change (join [CR; LF] (p :: p' :: ps))
    with (p ++ [CR; LF] ++ join [CR; LF] (p' :: ps)).
  change (join [LF] (p :: p' :: ps)) with (p ++ LF :: join [LF] (p' :: ps)).
  replace (p ++ [CR; LF] ++ join [CR; LF] (p' :: ps))
    with ((p ++ [CR]) ++ LF :: join [CR; LF] (p' :: ps))
    by (rewrite <- app_assoc; reflexivity).
  rewrite !split_app_sep; try assumption.
  - cbn [records]. rewrite TIME_REGEXP_CR, IH by discriminate. reflexivity.
  - apply Forall_app. split; [assumption|]. now repeat constructor.
Qed.

(** X20. A document whose lines end with a carriage return and a newline
    is imported like the same document with plain newlines: the same
    lines, with the same ids, timestamps and texts. *)
Theorem parseLRC_CRLF (now : nat -> N) (lines : list jsstring) :
  Forall (Forall (fun c => (c =? LF)%N = false)) lines ->
  parseLRC now (join [CR; LF] lines) = parseLRC now (join [LF] lines).
Proof.
  intros H. rewrite !parseLRC_records.
  destruct lines as [|p ps]; [reflexivity|].
  rewrite records_CRLF; [reflexivity | discriminate | assumption].
Qed.

Lemma parseLRC_CRLF_witness :
  map text
    (parseLRC (fun _ => 0%N)
       (join [CR; LF] [str "[00:01.50]Hello"; str "[bad line]";
                       str "[00:00.00]Start"]))
  = [str "Start"; str "Hello"].
Proof.
  rewrite (parseLRC_CRLF (fun _ => 0%N)).
  - reflexivity.
  - repeat constructor.
Defined.

(** ** What the events leave alone *)

Lemma onUpdateLyrics_frame (call : option (list LyricLine)) (st : AppState) :
  activeLineId (applySetters (onUpdateLyrics call) st) = activeLineId st
  /\ mode (applySetters (onUpdateLyrics call) st) = mode st
  /\ syncIndex (applySetters (onUpdateLyrics call) st) = syncIndex st.
Proof. destruct call; simpl; auto. Qed.

(** X21. Only the handlers that edit lines change the sequence: an export,
    a time update, a suggestion request, a mode toggle and the end of a
    notification leave it as it is. Only a time update and a tap change
    the active id, so that deleting or replacing the active line leaves
    the active id naming it; only a mode toggle and a tap change the mode
    or the cursor. This holds whichever closure handles the event. *)
Theorem events_frame (captured st : AppState) (e : event) :
  (edits_lyrics e = false -> lyrics (dispatch captured st e) = lyrics st)
  /\ (moves_highlight e = false ->
      activeLineId (dispatch captured st e) = activeLineId st)
  /\ (moves_cursor e = false ->
      mode (dispatch captured st e) = mode st
      /\ syncIndex (dispatch captured st e) = syncIndex st).
Proof.
  unfold dispatch. split; [|split].
  - destruct e; simpl; try discriminate; intros _; try reflexivity.
    + unfold handleTimeUpdate.
      destruct (findActive (lyrics captured) time) as [a|]; [|reflexivity].
      now destruct (differs (id a) (activeLineId captured)).
    + unfold toggleMode. now destruct (mode captured).
  - destruct e; simpl; try discriminate; intros _; try reflexivity.
    + now destruct result.
    + unfold handleAiSuggestion_resume. destruct suggestion; [reflexivity|].
      now destruct (nth_error (lyrics captured) index).
    + unfold toggleMode. now destruct (mode captured).
    + unfold handlePasteLyrics. now destruct answer as [[|c r]|].
    + apply onUpdateLyrics_frame.
    + destruct (LyricEditor.handleKeyDown (lyrics captured) now k index);
        [reflexivity | apply onUpdateLyrics_frame].
  - destruct e; simpl; try discriminate; intros _; auto.
    + now destruct result.
    + unfold handleTimeUpdate.
      destruct (findActive (lyrics captured) time) as [a|]; [|auto].
      now destruct (differs (id a) (activeLineId captured)).
    + unfold handleAiSuggestion_resume. destruct suggestion; [auto|].
      now destruct (nth_error (lyrics captured) index).
    + unfold handlePasteLyrics. now destruct answer as [[|c r]|].
    + apply onUpdateLyrics_frame.
    + destruct (LyricEditor.handleKeyDown (lyrics captured) now k index);
        [auto | apply onUpdateLyrics_frame].
Qed.

Lemma events_frame_witness :
  activeLineId (react playing_second (Delete (str "e"))) = Some (str "e")
  /\ ~ In (str "e") (map id (lyrics (react playing_second (Delete (str "e")))))
  /\ lyrics (react playing_second ToggleMode) = late_lines.
Proof.
  destruct (events_frame playing_second playing_second (Delete (str "e")))
    as (_ & Hactive & _).
  destruct (events_frame playing_second playing_second ToggleMode)
    as (Hlyrics & _).
  split; [apply Hactive; reflexivity|]. split; [|apply Hlyrics; reflexivity].
  simpl. intros [H | []]. discriminate.
Defined.

Lemma differs_same (i : jsstring) : differs i (Some i) = false.
Proof. unfold differs. now rewrite jsstring_eqb_refl. Qed.

(** X22. A time update handled by the closure of the latest render records
    the time, and the active id it leaves is that of the line found, if
    one is found; handled a second time with the same time, it changes
    nothing more. *)
Theorem time_update_settles (st : AppState) (time : number) :
  currentTime (react st (TimeUpdate time)) = time
  /\ (forall a,
        findActive (lyrics st) time = Some a ->
        activeLineId (react st (TimeUpdate time)) = Some (id a))
  /\ react (react st (TimeUpdate time)) (TimeUpdate time)
     = react st (TimeUpdate time).
Proof.
  destruct st as [l c a m k ai n].
  unfold react, dispatch, handle, handleTimeUpdate.
  cbn [lyrics activeLineId].
  destruct (findActive l time) as [x|] eqn:F.
  - destruct (differs (id x) a) eqn:D;
      cbn [applySetters fold_left applySetter lyrics currentTime activeLineId
           mode syncIndex isAiLoading notification].
    + rewrite F, differs_same.
      cbn [applySetters fold_left applySetter lyrics currentTime activeLineId
           mode syncIndex isAiLoading notification].
      split; [reflexivity|]. split; [|reflexivity].
      intros y E. congruence.
    + rewrite F, D.
      cbn [applySetters fold_left applySetter lyrics currentTime activeLineId
           mode syncIndex isAiLoading notification].
      split; [reflexivity|]. split; [|reflexivity].
      intros y E. injection E as <-. destruct a as [j|]; [|discriminate].
      unfold differs in D. apply negb_false_iff, jsstring_eqb_eq in D.
      congruence.
  - cbn [applySetters fold_left applySetter lyrics currentTime activeLineId
         mode syncIndex isAiLoading notification].
    rewrite F.
    cbn [applySetters fold_left applySetter lyrics currentTime activeLineId
         mode syncIndex isAiLoading notification].
    split; [reflexivity|]. split; [discriminate | reflexivity].
Qed.

Lemma time_update_settles_witness :
  activeLineId (react (editing three_lines) (TimeUpdate (Fin 1.6)))
  = Some (str "b").
Proof.
  destruct (time_update_settles (editing three_lines) (Fin 1.6))
    as (_ & H & _).
  apply (H (line "b" 1.5 "second")). reflexivity.
Defined.

(** ** The listener of the player *)

Lemma tick_lyrics (mounted st : AppState) (t : number) :
  lyrics (applySetters (handleTimeUpdate mounted t) st) = lyrics st.
Proof.
  unfold handleTimeUpdate.
  destruct (findActive (lyrics mounted) t) as [a|]; [|reflexivity].
  now destruct (differs (id a) (activeLineId mounted)).
Qed.

Lemma tick_active (mounted st : AppState) (t : number) :
  activeLineId (applySetters (handleTimeUpdate mounted t) st)
  = match findActive (lyrics mounted) t with
    | Some a =>
        if differs (id a) (activeLineId mounted) then Some (id a)
        else activeLineId st
    | None => activeLineId st
    end.
Proof.
  unfold handleTimeUpdate.
  destruct (findActive (lyrics mounted) t) as [a|]; [|reflexivity].
  now destruct (differs (id a) (activeLineId mounted)).
Qed.

Lemma findActive_last (pre : list LyricLine) (b : LyricLine) (t : number) :
  reached t b = true -> findActive (pre ++ [b]) t = Some b.
Proof.
  intros H. unfold findActive. rewrite rev_app_distr. simpl.
  unfold reached in H. now rewrite H.
Qed.

(** X23. The time updates of the player are handled, for good, by the
    closure of the render in which the player was mounted, so the active
    line is searched in the sequence as it was then, not in the current
    one. The active id they leave depends on the current state through its
    active id only; when the sequence was empty at that render no time
    update ever sets an active id, whatever lyrics were loaded since; and
    when it ended, with no line active, with a line that qualifies at each
    time, such as a pasted line timed 0, every time update makes that line
    the active one. None of them changes the sequence. *)
Theorem mounted_listener (mounted st : AppState) (times : list number) :
  lyrics (ticks mounted times st) = lyrics st
  /\ (forall st',
        activeLineId st' = activeLineId st ->
        activeLineId (ticks mounted times st')
        = activeLineId (ticks mounted times st))
  /\ (lyrics mounted = [] ->
      activeLineId (ticks mounted times st) = activeLineId st)
  /\ (forall pre b,
        lyrics mounted = pre ++ [b] -> activeLineId mounted = None ->
        times <> [] -> Forall (fun t => reached t b = true) times ->
        activeLineId (ticks mounted times st) = Some (id b)).
Proof.
  unfold ticks, WaveformPlayer.timeupdateListener.
  split; [|split; [|split]].
  - revert st. induction times as [|t times IH]; intros st; cbn [fold_left];
      [reflexivity|].
    rewrite IH. apply tick_lyrics.
  - revert st. induction times as [|t times IH]; intros st st' H; cbn [fold_left];
      [assumption|].
    apply IH. rewrite !tick_active.
    destruct (findActive (lyrics mounted) t) as [a|]; [|assumption].
    now destruct (differs (id a) (activeLineId mounted)).
  - intros Hm. revert st. induction times as [|t times IH]; intros st; cbn [fold_left];
      [reflexivity|].
    rewrite IH, tick_active, Hm. reflexivity.
  - intros pre b Hm Ha Hne Hall. revert st Hne.
    induction Hall as [|t times Ht Hall IH]; intros st Hne; [congruence|].
    cbn [fold_left].
    assert (E : activeLineId (applySetters (handleTimeUpdate mounted t) st)
                = Some (id b)).
    { rewrite tick_active, Hm, (findActive_last pre b t Ht), Ha. reflexivity. }
    destruct times as [|t' times]; [exact E|].
    apply IH. discriminate.
Qed.

Lemma mounted_listener_witness :
  activeLineId
    (ticks audio_first [Fin 0.5; Fin 1.6; Fin 3.3] (editing three_lines))
  = None
  /\ activeLineId
       (ticks (syncing 0) [Fin 0.5; Fin 1.6]
          (tapAll (syncing 0) [Some (Some (Fin 0.4)); Some (Some (Fin 1.5))]))
     = Some (str "p1").
Proof.
  split.
  - refine (proj1 (proj2 (proj2
             (mounted_listener audio_first (editing three_lines)
                [Fin 0.5; Fin 1.6; Fin 3.3]))) _).
    reflexivity.
  - refine (proj2 (proj2 (proj2
             (mounted_listener (syncing 0)
                (tapAll (syncing 0)
                   [Some (Some (Fin 0.4)); Some (Some (Fin 1.5))])
                [Fin 0.5; Fin 1.6])))
             [line "p0" 0 "one"] (line "p1" 0 "two") _ _ _ _).
    + reflexivity.
    + reflexivity.
    + discriminate.
    + repeat constructor.
Defined.
